(** * The blog-tree admin view (BlogAdmin component)

    A shallow embedding of the local state logic of the [BlogAdmin] React
    component: the five [useState] cells, the handlers [fetchBlogs],
    [fetchSubblogs], [toggleExpand] and [handleDelete], the recursive row
    renderer [BlogRow] and the search filter [filteredBlogs].

    Modelling conventions.
    - Identifiers ([blogID], object keys, [Set] members) are integers [Z].
    - [Set<number>] is a [gset Z]; the index-signature objects
      [LoadingState] and [SubblogsState] are [gmap]s.  [loading[id]] is
      truthy exactly when the map holds [true] at [id].
    - Strings are byte sequences, the UTF-8 form of the JavaScript
      strings (one well-formed string occurs in another as a byte
      sequence exactly when it does as a sequence of code units).
      [String.prototype.toLowerCase] belongs to the runtime,
      not to the component: the search filter takes it as a parameter,
      and where a property needs more of it than its being a function,
      the assumption is [agrees_on_ascii]: on strings of ASCII characters
      it lowers the letters A-Z and leaves every other character alone.
    - An [async] function is cut at each [await]: the part before it runs
      inside the event that calls it and leaves a continuation in
      [inflight]; the part after it runs when that continuation is settled
      with the outcome of the request.  Events are atomic, each handler
      reads the state of the latest render, and each state updater runs
      once.
    - Network requests, [console.error] lines and [alert] boxes are
      recorded, in order, in the [World]. *)

From Stdlib Require Import ZArith Ascii String.
From stdpp Require Import gmap strings list fin_maps.

Local Open Scope Z_scope.

(** ** Data model *)

Record Timestamp := mkTimestamp {
  seconds : Z;
  nanoseconds : Z
}.

Record BlogData := mkBlog {
  blogID : Z;
  blogName : string;
  createdAt : Timestamp;
  featured : option bool;
  parentId : option Z
}.

(** [{ ...blog, parentId }] *)
Definition with_parentId (p : Z) (blog : BlogData) : BlogData :=
  {| blogID := blogID blog;
     blogName := blogName blog;
     createdAt := createdAt blog;
     featured := featured blog;
     parentId := Some p |}.

(** The five [useState] cells of the component. *)
Record State := mkState {
  searchQuery : string;
  blogs : list BlogData;
  expandedBlogIds : gset Z;
  subblogs : gmap Z (list BlogData);
  loading : gmap Z bool
}.

(** Requests sent through the axios instance, tagged by the call site. *)
Inductive Request :=
| ReqList                       (* fetchBlogs:    GET /blog?id=-1 *)
| ReqChildren (parent : Z)      (* fetchSubblogs: GET /blog?id=parent *)
| ReqDelete (id : Z).           (* handleDelete:  DELETE /blog {blogIds:[id]} *)

Inductive Method := GET | DELETE.

(** What goes on the wire: method, path, the [id] parameter or the
    [blogIds] body. *)
Definition wire (r : Request) : Method * string * list Z :=
  match r with
  | ReqList => (GET, "/blog"%string, [-1])
  | ReqChildren p => (GET, "/blog"%string, [p])
  | ReqDelete id => (DELETE, "/blog"%string, [id])
  end.

(** Suspended [async] calls, one constructor per [await]. *)
Inductive Pending :=
| AwaitBlogs                    (* fetchBlogs of the mount effect, at api.get *)
| AwaitSubblogs (parent : Z)    (* fetchSubblogs, at api.get *)
| AwaitDelete (id : Z)          (* handleDelete, at api.delete *)
| AwaitRefetch.                 (* handleDelete, at await fetchBlogs() *)

(** Outcome of a request: [response.data.blogs], or a rejection. *)
Inductive Response :=
| Resolved (data : list BlogData)
| Rejected (error : string).

Record World := mkWorld {
  state : State;
  requests : list Request;
  inflight : list Pending;
  console : list string;
  alerts : list string
}.

#[global] Instance Request_eq_dec : EqDecision Request.
Proof. solve_decision. Defined.

#[global] Instance Pending_eq_dec : EqDecision Pending.
Proof. solve_decision. Defined.

(** ** State setters *)

Definition setSearchQuery (q : string) (s : State) : State :=
  mkState q (blogs s) (expandedBlogIds s) (subblogs s) (loading s).

Definition setBlogs (bs : list BlogData) (s : State) : State :=
  mkState (searchQuery s) bs (expandedBlogIds s) (subblogs s) (loading s).

Definition setExpandedBlogIds (f : gset Z → gset Z) (s : State) : State :=
  mkState (searchQuery s) (blogs s) (f (expandedBlogIds s)) (subblogs s)
          (loading s).

Definition setSubblogs (f : gmap Z (list BlogData) → gmap Z (list BlogData))
    (s : State) : State :=
  mkState (searchQuery s) (blogs s) (expandedBlogIds s) (f (subblogs s))
          (loading s).

Definition setLoading (f : gmap Z bool → gmap Z bool) (s : State) : State :=
  mkState (searchQuery s) (blogs s) (expandedBlogIds s) (subblogs s)
          (f (loading s)).

Definition upd (f : State → State) (w : World) : World :=
  mkWorld (f (state w)) (requests w) (inflight w) (console w) (alerts w).

Definition send (r : Request) (w : World) : World :=
  mkWorld (state w) (requests w ++ [r]) (inflight w) (console w) (alerts w).

Definition suspend (p : Pending) (w : World) : World :=
  mkWorld (state w) (requests w) (inflight w ++ [p]) (console w) (alerts w).

Definition console_error (msg : string) (w : World) : World :=
  mkWorld (state w) (requests w) (inflight w) (console w ++ [msg]) (alerts w).

Definition alert (msg : string) (w : World) : World :=
  mkWorld (state w) (requests w) (inflight w) (console w) (alerts w ++ [msg]).

(** [loading[id]] used as a condition. *)
Definition is_loading (s : State) (id : Z) : bool :=
  default false (loading s !! id).

(** [expandedBlogIds.has(id)] *)
Definition is_expanded (s : State) (id : Z) : bool :=
  bool_decide (id ∈ expandedBlogIds s).

(** ** Handlers *)

(** [fetchBlogs], up to [await api.get]. *)
Definition fetchBlogs (w : World) : World := send ReqList w.

(** [fetchBlogs], from the [await] on: [setBlogs] or the [catch]. *)
Definition fetchBlogs_resume (r : Response) (w : World) : World :=
  match r with
  | Resolved data => upd (setBlogs data) w
  | Rejected _ => console_error "Error fetching blogs:" w
  end.

(** [fetchSubblogs], up to [await api.get]. *)
Definition fetchSubblogs (parent : Z) (w : World) : World :=
  if is_loading (state w) parent then w
  else
    suspend (AwaitSubblogs parent)
      (send (ReqChildren parent)
         (upd (setLoading (λ prev, <[parent := true]> prev)) w)).

(** [fetchSubblogs], from the [await] on: the merge or the [catch], then
    the [finally]. *)
Definition fetchSubblogs_resume (parent : Z) (r : Response) (w : World)
    : World :=
  let w1 :=
    match r with
    | Resolved data =>
        upd (setSubblogs
               (λ prev, <[parent := map (with_parentId parent) data]> prev)) w
    | Rejected _ => console_error "Error fetching subblogs:" w
    end in
  upd (setLoading (λ prev, <[parent := false]> prev)) w1.

(** [toggleExpand]: the updater passed to [setExpandedBlogIds], with the
    call of [fetchSubblogs] it makes on the expanding branch. *)
Definition toggleExpand (blog : BlogData) (w : World) : World :=
  let parent := blogID blog in
  if is_expanded (state w) parent then
    upd (setExpandedBlogIds (λ prev, prev ∖ {[parent]})) w
  else
    upd (setExpandedBlogIds (λ prev, {[parent]} ∪ prev))
        (fetchSubblogs parent w).

(** [handleDelete], up to [await api.delete]; [confirmed] is the answer
    of [window.confirm]. *)
Definition handleDelete (id : Z) (confirmed : bool) (w : World) : World :=
  if confirmed then suspend (AwaitDelete id) (send (ReqDelete id) w)
  else w.

(** [handleDelete], after [api.delete] settled: start [fetchBlogs] and
    wait for it, or the [catch]. *)
Definition handleDelete_deleted (r : Response) (w : World) : World :=
  match r with
  | Resolved _ => suspend AwaitRefetch (fetchBlogs w)
  | Rejected _ =>
      alert "Failed to delete blog" (console_error "Error deleting blog:" w)
  end.

(** [handleDelete], after the awaited [fetchBlogs] returned. *)
Definition handleDelete_refetched (r : Response) (w : World) : World :=
  upd (setExpandedBlogIds (λ _, ∅))
      (upd (setSubblogs (λ _, ∅)) (fetchBlogs_resume r w)).

(** The mount effect: [useEffect(() => { fetchBlogs(); }, [])]. *)
Definition mount (w : World) : World := suspend AwaitBlogs (fetchBlogs w).

(** ** The event loop *)

Inductive Event :=
| Toggle (blog : BlogData)              (* click on the expand button *)
| Delete (id : Z) (confirmed : bool)    (* click on the trash button *)
| SetQuery (q : string)                 (* typing in the search box *)
| Settle (p : Pending) (r : Response).  (* a request settles *)

Fixpoint remove_first (p : Pending) (l : list Pending) : list Pending :=
  match l with
  | [] => []
  | q :: l' => if decide (p = q) then l' else q :: remove_first p l'
  end.

Definition resume (p : Pending) (r : Response) (w : World) : World :=
  match p with
  | AwaitBlogs => fetchBlogs_resume r w
  | AwaitSubblogs parent => fetchSubblogs_resume parent r w
  | AwaitDelete _ => handleDelete_deleted r w
  | AwaitRefetch => handleDelete_refetched r w
  end.

Definition take_inflight (p : Pending) (w : World) : World :=
  mkWorld (state w) (requests w) (remove_first p (inflight w)) (console w)
          (alerts w).

(** One turn of the event loop; [None] when a continuation that is not in
    flight is asked to settle. *)
Definition step (e : Event) (w : World) : option World :=
  match e with
  | Toggle blog => Some (toggleExpand blog w)
  | Delete id confirmed => Some (handleDelete id confirmed w)
  | SetQuery q => Some (upd (setSearchQuery q) w)
  | Settle p r =>
      if bool_decide (p ∈ inflight w) then Some (resume p r (take_inflight p w))
      else None
  end.

Fixpoint run (es : list Event) (w : World) : option World :=
  match es with
  | [] => Some w
  | e :: es' =>
      match step e w with
      | Some w' => run es' w'
      | None => None
      end
  end.

Definition initial_state : State := mkState "" [] ∅ ∅ ∅.

(** The component right after its first render and mount effect. *)
Definition initial_world : World :=
  mount (mkWorld initial_state [] [] [] []).

Inductive reachable : World → Prop :=
| reachable_init : reachable initial_world
| reachable_step e w w' :
    reachable w → step e w = Some w' → reachable w'.

(** Number of child fetches for [id] that have not settled yet. *)
Definition outstanding (id : Z) (w : World) : nat :=
  length (filter (λ p, p = AwaitSubblogs id) (inflight w)).

(** ** Strings *)

Definition is_upper (c : ascii) : bool :=
  (Nat.leb 65 (nat_of_ascii c) && Nat.leb (nat_of_ascii c) 90)%bool.

Definition lower_ascii (c : ascii) : ascii :=
  if is_upper c then ascii_of_nat (nat_of_ascii c + 32) else c.

(** What [String.prototype.toLowerCase] does to a string of ASCII
    characters: A-Z go to a-z, every other character stays. *)
Fixpoint ascii_toLowerCase (s : string) : string :=
  match s with
  | EmptyString => EmptyString
  | String c s' => String (lower_ascii c) (ascii_toLowerCase s')
  end.

(** Every character of the string is an ASCII character. *)
Fixpoint is_ascii (s : string) : bool :=
  match s with
  | EmptyString => true
  | String c s' => (Nat.ltb (nat_of_ascii c) 128 && is_ascii s')%bool
  end.

(** What is assumed of the runtime's [toLowerCase]: its value on the
    strings of ASCII characters. *)
Definition agrees_on_ascii (toLowerCase : string → string) : Prop :=
  ∀ s, is_ascii s = true → toLowerCase s = ascii_toLowerCase s.

(** [s.startsWith(t)] *)
Fixpoint startsWith (s t : string) {struct t} : bool :=
  match t, s with
  | EmptyString, _ => true
  | String _ _, EmptyString => false
  | String b t', String a s' =>
      if decide (a = b) then startsWith s' t' else false
  end.

(** [s.includes(t)] *)
Fixpoint includes (s t : string) : bool :=
  (startsWith s t ||
   match s with
   | EmptyString => false
   | String _ s' => includes s' t
   end)%bool.

(** [s || d] on strings: the empty string is falsy. *)
Definition or_else (s d : string) : string :=
  if decide (s = EmptyString) then d else s.

(** ** Search filter *)

(** The callback of [blogs.filter]; [toLowerCase] is the runtime's
    [String.prototype.toLowerCase]. *)
Definition matches_query (toLowerCase : string → string) (q : string)
    (blog : BlogData) : bool :=
  let name := or_else (blogName blog) "" in
  includes (toLowerCase name) (toLowerCase q).

Definition filteredBlogs (toLowerCase : string → string) (s : State)
    : list BlogData :=
  List.filter (matches_query toLowerCase (searchQuery s)) (blogs s).

(** ** Row renderer *)

Inductive Icon := Spinner | ChevronDown | ChevronRight.

(** One [<tr>]: what [BlogRow] puts in it. *)
Record Row := mkRow {
  row_blog : BlogData;
  row_level : nat;
  row_padding : nat;         (* paddingLeft, in px *)
  row_disabled : bool;       (* the expand button's [disabled] *)
  row_icon : Icon;
  row_title : string;
  row_date : Z;              (* argument of [new Date] in formatDate *)
  row_featured : bool
}.

(** [formatDate], up to the locale formatting of the date. *)
Definition formatDate (t : Timestamp) : Z := seconds t * 1000.

Definition row_of (s : State) (blog : BlogData) (level : nat) : Row :=
  {| row_blog := blog;
     row_level := level;
     row_padding := (level * 24)%nat;
     row_disabled := is_loading s (blogID blog);
     row_icon :=
       if is_loading s (blogID blog) then Spinner
       else if is_expanded s (blogID blog) then ChevronDown
       else ChevronRight;
     row_title := or_else (blogName blog) "Untitled Blog";
     row_date := formatDate (createdAt blog);
     row_featured := default false (featured blog) |}.

(** [subblogs[id]?.length > 0] *)
Definition hasSubblogs (s : State) (id : Z) : bool :=
  match subblogs s !! id with
  | Some kids => bool_decide (0 < length kids)%nat
  | None => false
  end.

(** [BlogRow]: the rows of a node and of its expanded descendants, in
    document order.  The component recurses through the cache with no
    depth limit; [fuel] bounds the nesting and [None] means it ran out. *)
Fixpoint BlogRow (fuel : nat) (s : State) (blog : BlogData) (level : nat)
    : option (list Row) :=
  match fuel with
  | O => None
  | S fuel' =>
      let row := row_of s blog level in
      if (is_expanded s (blogID blog) && hasSubblogs s (blogID blog))%bool
      then
        match subblogs s !! blogID blog with
        | Some kids =>
            rows ← mapM (λ subblog, BlogRow fuel' s subblog (S level)) kids;
            Some (row :: concat rows)
        | None => Some [row]
        end
      else Some [row]
  end.

(** The [<tbody>]: one [BlogRow] at level 0 per filtered blog. *)
Definition table_body (toLowerCase : string → string) (fuel : nat)
    (s : State) : option (list Row) :=
  rows ← mapM (λ blog, BlogRow fuel s blog 0%nat)
              (filteredBlogs toLowerCase s);
  Some (concat rows).

(** ** Containment after lower-casing *)

(** The lower-cased [name] contains the lower-cased [q] as a substring. *)
Definition lowered_contains (toLowerCase : string → string)
    (name q : string) : Prop :=
  ∃ pre post, toLowerCase name = pre +:+ toLowerCase q +:+ post.

(** ** Case-insensitive containment of ASCII strings, as the
    specification words it *)

(** Two ASCII characters are the same letter when they are equal or one
    is a capital letter, code 65 (A) to 90 (Z), and the other its small
    form, 32 further. *)
Definition same_letter (a b : ascii) : Prop :=
  a = b
  ∨ ((65 ≤ nat_of_ascii a ≤ 90)%nat
     ∧ nat_of_ascii b = (nat_of_ascii a + 32)%nat)
  ∨ ((65 ≤ nat_of_ascii b ≤ 90)%nat
     ∧ nat_of_ascii a = (nat_of_ascii b + 32)%nat).

Fixpoint ci_equal (s t : string) : Prop :=
  match s, t with
  | EmptyString, EmptyString => True
  | String a s', String b t' => same_letter a b ∧ ci_equal s' t'
  | _, _ => False
  end.

(** [name] contains [q] as a substring, compared letter by letter up to
    case. *)
Definition ci_contains (name q : string) : Prop :=
  ∃ pre mid post, name = pre +:+ mid +:+ post ∧ ci_equal mid q.

(** [l'] is exactly the subsequence of [l] made of the elements that
    satisfy [P], in their order and with their multiplicity. *)
Inductive subsequence_where (P : BlogData → Prop)
    : list BlogData → list BlogData → Prop :=
| sw_nil : subsequence_where P [] []
| sw_keep b l l' :
    P b → subsequence_where P l l' → subsequence_where P (b :: l) (b :: l')
| sw_drop b l l' :
    ¬ P b → subsequence_where P l l' → subsequence_where P (b :: l) l'.

(** ** Sample data *)

Definition epoch : Timestamp := mkTimestamp 0 0.

Definition blog_zine : BlogData := mkBlog 1 "Zine Robotics" epoch None None.
Definition blog_plain : BlogData := mkBlog 2 "Blog" epoch None None.
Definition blog_child : BlogData := mkBlog 3 "Blog" epoch None (Some 7).

(** Two top-level blogs, the first expanded with one cached child, and
    the query "zine" typed in the search box. *)
Definition search_state : State :=
  mkState "zine" [blog_zine; blog_plain] {[1]}
          {[1 := [with_parentId 1 blog_child]]} ∅.

(** A case mapping that agrees with [String.prototype.toLowerCase] on
    every string of ASCII characters and on the two Greek strings below:
    the runtime lowers a capital sigma to ς at the end of a word and to
    σ elsewhere. *)
Definition final_sigma_lower (s : string) : string :=
  if decide (s = "ΑΣΑ"%string) then "ασα"%string
  else if decide (s = "ΑΣ"%string) then "ας"%string
  else ascii_toLowerCase s.

(** One top-level blog named "ΑΣΑ" and the query "ΑΣ", its first two
    letters. *)
Definition blog_sigma : BlogData := mkBlog 4 "ΑΣΑ" epoch None None.

Definition sigma_state : State := mkState "ΑΣ" [blog_sigma] ∅ ∅ ∅.

(** A world in which node 1 is expanded and its children are cached:
    expand it from the initial world, then let its fetch succeed. *)
Definition cached_world : World :=
  default initial_world
    (run [Toggle blog_zine; Settle (AwaitSubblogs 1) (Resolved [blog_child])]
         initial_world).

(** Number of child fetches keyed by [id] sent so far. *)
Definition fetches (id : Z) (w : World) : nat :=
  length (filter (λ r, r = ReqChildren id) (requests w)).

(** The event is a toggle that expands node [id]: a click on a row of
    that node while its id is not in the expansion set. *)
Definition is_expanding (id : Z) (e : Event) (w : World) : bool :=
  match e with
  | Toggle blog =>
      bool_decide (blogID blog = id) && negb (is_expanded (state w) id)
  | _ => false
  end.

(** How many times node [id] is expanded along a run. *)
Fixpoint expansions (id : Z) (es : list Event) (w : World) : nat :=
  match es with
  | [] => 0
  | e :: es' =>
      match step e w with
      | Some w' =>
          ((if is_expanding id e w then 1 else 0) + expansions id es' w')%nat
      | None => 0%nat
      end
  end.

(** ** Invariants of the event loop *)

(** [loading[id]] is truthy exactly while one child fetch for [id] is in
    flight, and there is never more than one. *)
Definition loading_inv (w : World) : Prop :=
  ∀ id, outstanding id w = if is_loading (state w) id then 1%nat else 0%nat.

(** Every cached child carries the key it is cached under as [parentId]. *)
Definition parent_inv (w : World) : Prop :=
  ∀ p kids child,
    subblogs (state w) !! p = Some kids → child ∈ kids →
    parentId child = Some p.

(** [cached_world] after a click that expands node 2: its child fetch is
    in flight. *)
Definition loading_world : World := toggleExpand blog_plain cached_world.

(** A state whose cache lists node 1 among its own children, expanded. *)
Definition cyclic_state : State :=
  mkState "" [blog_zine] {[1]} {[1 := [blog_zine]]} ∅.

(** ** The empty-table notice *)

(** [filteredBlogs.length === 0], the condition of the "No blogs found"
    notice under the table. *)
Definition no_blogs_found (toLowerCase : string → string) (s : State)
    : bool :=
  bool_decide (length (filteredBlogs toLowerCase s) = 0%nat).

(** ** Navigation handlers *)

(** The pathname given to [router.push]: a literal, or the template
    [`/blogs/${blogID}`], kept with its number. *)
Inductive Path :=
| Literal (path : string)
| BlogsPath (id : Z).

(** A value in a [query] object. *)
Inductive QueryValue :=
| QBool (b : bool)
| QNum (n : Z)
| QUndefined.

(** The argument of [router.push]: a URL string, or an object with
    [pathname] and [query]. *)
Inductive Route :=
| Url (path : Path)
| UrlObject (pathname : Path) (query : list (string * QueryValue)).

(** An optional number read where a value is expected. *)
Definition query_num (o : option Z) : QueryValue :=
  match o with
  | Some n => QNum n
  | None => QUndefined
  end.

(** An optional number used as a condition: [undefined] and [0] are
    falsy. *)
Definition truthy_num (o : option Z) : bool :=
  match o with
  | Some n => negb (n =? 0)
  | None => false
  end.

Definition handleEdit (blog : BlogData) : Route :=
  UrlObject (Literal "/admin/updateblog")
    [("edit"%string, QBool true);
     ("blogId"%string, QNum (blogID blog));
     ("parentId"%string, query_num (parentId blog))].

Definition handleCreate : Route := Url (Literal "/admin/createblogs").

Definition handleCreateSubblog (parent : Z) : Route :=
  UrlObject (Literal "/admin/createblogs") [("parentId"%string, QNum parent)].

Definition handleView (blog : BlogData) : Route :=
  UrlObject (BlogsPath (blogID blog))
    (if truthy_num (parentId blog)
     then [("parentId"%string, query_num (parentId blog))]
     else []).

(** ** The request interceptor *)

(** The default headers of the axios instance. *)
Definition base_headers : gmap string string :=
  <["Content-Type"%string := "application/json"%string]>
    (<["stage"%string := "test"%string]> ∅).

(** The interceptor on the headers of a request; [token] is what
    [localStorage.getItem('token')] returns, [None] for [null].  The empty
    string is falsy. *)
Definition request_interceptor (token : option string)
    (headers : gmap string string) : gmap string string :=
  match token with
  | Some t =>
      if decide (t = EmptyString) then headers
      else <["Authorization"%string := ("Bearer " +:+ t)%string]> headers
  | None => headers
  end.

(** ** Further invariants *)

(** An id that is expanded, loading or cached has had a child fetch sent
    for it. *)
Definition fetched_inv (w : World) : Prop :=
  ∀ id,
    id ∈ expandedBlogIds (state w)
    ∨ is_loading (state w) id = true
    ∨ is_Some (subblogs (state w) !! id) →
    (0 < fetches id w)%nat.

(** The rows a render may show: the node itself, or a cached child of an
    expanded node. *)
Definition shown_in (s : State) (root : BlogData) (blog : BlogData) : Prop :=
  blog = root
  ∨ ∃ p kids, p ∈ expandedBlogIds s ∧ subblogs s !! p = Some kids
              ∧ blog ∈ kids.

(** A world whose cache lists node 1 under key 1: the server answered the
    child fetch of node 1 with node 1 itself. *)
Definition cyclic_world : World :=
  default initial_world
    (run [Toggle blog_zine; Settle (AwaitSubblogs 1) (Resolved [blog_zine])]
         initial_world).

(** [cached_world] with a confirmed delete of node 2 whose request has
    succeeded and whose refetch is awaited, and node 2 expanded meanwhile,
    its child fetch in flight. *)
Definition racing_world : World :=
  default initial_world
    (run [Delete 2 true; Settle (AwaitDelete 2) (Resolved []);
          Toggle blog_plain] cached_world).

(** ** Accounting of the top-level fetches *)

Definition is_list_req (r : Request) : bool :=
  match r with
  | ReqList => true
  | _ => false
  end.

Definition is_delete_req (r : Request) : bool :=
  match r with
  | ReqDelete _ => true
  | _ => false
  end.

Definition awaits_delete (p : Pending) : bool :=
  match p with
  | AwaitDelete _ => true
  | _ => false
  end.

(** Every fetch of the top-level list but the first is paid for by a
    delete request that has settled. *)
Definition refetch_inv (w : World) : Prop :=
  (length (List.filter is_list_req (requests w))
   + length (List.filter awaits_delete (inflight w))
   ≤ 1 + length (List.filter is_delete_req (requests w)))%nat.

(** * Properties *)

(** ** Elementary facts about the handlers *)

Lemma is_expanded_true (s : State) (id : Z) :
  is_expanded s id = true ↔ id ∈ expandedBlogIds s.
Proof. unfold is_expanded. apply bool_decide_eq_true. Qed.

Lemma is_expanded_false (s : State) (id : Z) :
  is_expanded s id = false ↔ id ∉ expandedBlogIds s.
Proof. unfold is_expanded. apply bool_decide_eq_false. Qed.

Lemma is_loading_true (s : State) (id : Z) :
  is_loading s id = true ↔ loading s !! id = Some true.
Proof.
  unfold is_loading. destruct (loading s !! id) as [[]|]; simpl;
    split; congruence.
Qed.

Lemma fetchSubblogs_busy (id : Z) (w : World) :
  is_loading (state w) id = true → fetchSubblogs id w = w.
Proof. intros H. unfold fetchSubblogs. by rewrite H. Qed.

Lemma fetchSubblogs_idle (id : Z) (w : World) :
  is_loading (state w) id = false →
  fetchSubblogs id w =
    mkWorld (setLoading (λ prev, <[id := true]> prev) (state w))
            (requests w ++ [ReqChildren id])
            (inflight w ++ [AwaitSubblogs id])
            (console w) (alerts w).
Proof. intros H. unfold fetchSubblogs. by rewrite H. Qed.

Lemma fetchSubblogs_marks_loading (id : Z) (w : World) :
  is_loading (state (fetchSubblogs id w)) id = true.
Proof.
  destruct (is_loading (state w) id) eqn:H.
  - by rewrite fetchSubblogs_busy.
  - rewrite fetchSubblogs_idle by done. simpl.
    apply is_loading_true. simpl. apply lookup_insert_eq.
Qed.

Lemma fetchSubblogs_expanded (id : Z) (w : World) :
  expandedBlogIds (state (fetchSubblogs id w)) = expandedBlogIds (state w).
Proof. unfold fetchSubblogs. by destruct (is_loading _ _). Qed.

Lemma fetchSubblogs_subblogs (id : Z) (w : World) :
  subblogs (state (fetchSubblogs id w)) = subblogs (state w).
Proof. unfold fetchSubblogs. by destruct (is_loading _ _). Qed.

Lemma toggleExpand_collapse (blog : BlogData) (w : World) :
  blogID blog ∈ expandedBlogIds (state w) →
  toggleExpand blog w =
    upd (setExpandedBlogIds (λ prev, prev ∖ {[blogID blog]})) w.
Proof.
  intros H. unfold toggleExpand.
  by rewrite (proj2 (is_expanded_true _ _) H).
Qed.

Lemma toggleExpand_expand (blog : BlogData) (w : World) :
  blogID blog ∉ expandedBlogIds (state w) →
  toggleExpand blog w =
    upd (setExpandedBlogIds (λ prev, {[blogID blog]} ∪ prev))
        (fetchSubblogs (blogID blog) w).
Proof.
  intros H. unfold toggleExpand.
  by rewrite (proj2 (is_expanded_false _ _) H).
Qed.

Lemma toggleExpand_subblogs (blog : BlogData) (w : World) :
  subblogs (state (toggleExpand blog w)) = subblogs (state w).
Proof.
  unfold toggleExpand. destruct (is_expanded _ _); simpl; [done|].
  apply fetchSubblogs_subblogs.
Qed.

Lemma toggleExpand_busy_requests (blog : BlogData) (w : World) :
  is_loading (state w) (blogID blog) = true →
  requests (toggleExpand blog w) = requests w.
Proof.
  intros H. unfold toggleExpand. destruct (is_expanded _ _); simpl; [done|].
  by rewrite fetchSubblogs_busy.
Qed.

(** ** The expansion controller *)

(** C2: [toggleExpand] on a node whose id is in the expansion set removes
    the id and sends nothing; on any other node it adds the id and sends
    exactly one child fetch keyed by the id when [loading] is not true for
    it, and nothing when it is. *)
Theorem toggle_contract (blog : BlogData) (w : World) :
  (blogID blog ∈ expandedBlogIds (state w) →
     expandedBlogIds (state (toggleExpand blog w))
       = expandedBlogIds (state w) ∖ {[blogID blog]}
     ∧ (blogID blog ∉ expandedBlogIds (state (toggleExpand blog w)))
     ∧ requests (toggleExpand blog w) = requests w
     ∧ inflight (toggleExpand blog w) = inflight w)
  ∧ (blogID blog ∉ expandedBlogIds (state w) →
     expandedBlogIds (state (toggleExpand blog w))
       = {[blogID blog]} ∪ expandedBlogIds (state w)
     ∧ (blogID blog ∈ expandedBlogIds (state (toggleExpand blog w)))
     ∧ requests (toggleExpand blog w)
       = requests w ++
         (if is_loading (state w) (blogID blog) then []
          else [ReqChildren (blogID blog)])).
Proof.
  split; intros Hid.
  - rewrite toggleExpand_collapse by done. simpl.
    split_and!; try done. apply not_elem_of_difference. right.
    by apply elem_of_singleton.
  - rewrite toggleExpand_expand by done. simpl.
    rewrite fetchSubblogs_expanded.
    split_and!; [done | apply elem_of_union_l; by apply elem_of_singleton |].
    destruct (is_loading (state w) (blogID blog)) eqn:L.
    + rewrite fetchSubblogs_busy by done. by rewrite app_nil_r.
    + by rewrite fetchSubblogs_idle.
Qed.

Lemma toggle_contract_witness :
  ((blogID blog_zine ∈ expandedBlogIds (state cached_world))
   ∧ requests (toggleExpand blog_zine cached_world) = requests cached_world)
  ∧ ((blogID blog_plain ∉ expandedBlogIds (state cached_world))
     ∧ requests (toggleExpand blog_plain cached_world)
       = requests cached_world ++ [ReqChildren 2]).
Proof.
  split.
  - assert (H : blogID blog_zine ∈ expandedBlogIds (state cached_world))
      by (apply is_expanded_true; vm_compute; reflexivity).
    split; [exact H|].
    exact (proj1 (proj2 (proj2
             (proj1 (toggle_contract blog_zine cached_world) H)))).
  - assert (H : blogID blog_plain ∉ expandedBlogIds (state cached_world))
      by (apply is_expanded_false; vm_compute; reflexivity).
    split; [exact H|].
    exact (proj2 (proj2
             (proj2 (toggle_contract blog_plain cached_world) H))).
Defined.

(** ** Counting continuations in flight *)

Section Counting.

Implicit Types (p q : Pending) (l : list Pending).

Lemma count_snoc q p l :
  length (filter (λ x, x = q) (l ++ [p]))
  = (length (filter (λ x, x = q) l) + if decide (p = q) then 1 else 0)%nat.
Proof.
  rewrite filter_app, length_app. f_equal.
  rewrite filter_cons, filter_nil. by destruct (decide (p = q)).
Qed.

Lemma count_remove_first q p l :
  length (filter (λ x, x = q) (remove_first p l))
  = if decide (p = q) then Nat.pred (length (filter (λ x, x = q) l))
    else length (filter (λ x, x = q) l).
Proof.
  induction l as [|a l IH]; simpl.
  - by destruct (decide (p = q)).
  - rewrite filter_cons. destruct (decide (p = a)) as [->|Hpa].
    + destruct (decide (a = q)) as [->|Haq]; simpl; done.
    + rewrite filter_cons. destruct (decide (a = q)) as [->|Haq]; simpl.
      * rewrite IH. by destruct (decide (p = q)).
      * exact IH.
Qed.

Lemma count_pos q l : q ∈ l ↔ (0 < length (filter (λ x, x = q) l))%nat.
Proof.
  induction l as [|a l IH].
  - rewrite filter_nil. simpl. split; [by intros ?%not_elem_of_nil | lia].
  - rewrite filter_cons, elem_of_cons.
    destruct (decide (a = q)) as [->|Haq]; simpl.
    + split; [lia | by left].
    + rewrite <- IH. split; [intros [->|]; done | by right].
Qed.

End Counting.

Lemma outstanding_in (id : Z) (w : World) :
  AwaitSubblogs id ∈ inflight w ↔ (0 < outstanding id w)%nat.
Proof. apply count_pos. Qed.

Lemma is_loading_insert (s : State) (id0 id : Z) (b : bool) :
  is_loading (setLoading (λ prev, <[id0 := b]> prev) s) id
  = if decide (id0 = id) then b else is_loading s id.
Proof.
  unfold is_loading. simpl. rewrite lookup_insert.
  by destruct (decide (id0 = id)).
Qed.

(** ** The invariants hold in every reachable world *)

Lemma loading_inv_initial : loading_inv initial_world.
Proof. intros id. reflexivity. Qed.

Lemma loading_inv_fetchSubblogs (id0 : Z) (w : World) :
  loading_inv w → loading_inv (fetchSubblogs id0 w).
Proof.
  intros Hinv id.
  destruct (is_loading (state w) id0) eqn:L.
  - rewrite fetchSubblogs_busy by done. apply Hinv.
  - rewrite fetchSubblogs_idle by done. unfold outstanding. simpl.
    rewrite count_snoc, is_loading_insert.
    pose proof (Hinv id) as Hid. unfold outstanding in Hid. rewrite Hid.
    destruct (decide (id0 = id)) as [->|Hne].
    + rewrite L. by rewrite decide_True.
    + rewrite decide_False by congruence.
      destruct (is_loading (state w) id); lia.
Qed.

Lemma loading_inv_toggleExpand (blog : BlogData) (w : World) :
  loading_inv w → loading_inv (toggleExpand blog w).
Proof.
  intros Hinv. unfold toggleExpand.
  destruct (is_expanded _ _).
  - exact Hinv.
  - exact (loading_inv_fetchSubblogs _ _ Hinv).
Qed.

Lemma loading_inv_settle (p : Pending) (r : Response) (w : World) :
  loading_inv w → p ∈ inflight w →
  loading_inv (resume p r (take_inflight p w)).
Proof.
  intros Hinv Hp id. pose proof (Hinv id) as Hid.
  unfold outstanding in *.
  destruct p as [|id0| |]; unfold resume.
  - destruct r; simpl; rewrite count_remove_first;
      by rewrite decide_False.
  - assert (inflight (fetchSubblogs_resume id0 r (take_inflight (AwaitSubblogs id0) w))
            = remove_first (AwaitSubblogs id0) (inflight w)) as ->
      by (by destruct r).
    assert (is_loading (state (fetchSubblogs_resume id0 r
                (take_inflight (AwaitSubblogs id0) w))) id
            = if decide (id0 = id) then false else is_loading (state w) id) as ->.
    { unfold fetchSubblogs_resume. destruct r; simpl;
        unfold is_loading; simpl; rewrite lookup_insert;
        by destruct (decide (id0 = id)). }
    rewrite count_remove_first.
    destruct (decide (id0 = id)) as [->|Hne].
    + rewrite decide_True by done. rewrite Hid.
      by destruct (is_loading (state w) id).
    + rewrite decide_False by congruence. exact Hid.
  - destruct r; simpl; rewrite ?count_snoc, count_remove_first;
      rewrite ?decide_False by done; rewrite ?Nat.add_0_r; exact Hid.
  - destruct r; simpl; rewrite count_remove_first;
      by rewrite decide_False.
Qed.

Lemma loading_inv_step (e : Event) (w w' : World) :
  loading_inv w → step e w = Some w' → loading_inv w'.
Proof.
  intros Hinv Hstep. destruct e as [blog|id confirmed|q|p r]; simpl in Hstep.
  - injection Hstep as <-. by apply loading_inv_toggleExpand.
  - injection Hstep as <-. destruct confirmed; simpl; [|done].
    intros i. unfold outstanding. simpl. rewrite count_snoc.
    rewrite decide_False by done. rewrite Nat.add_0_r. apply Hinv.
  - injection Hstep as <-. exact Hinv.
  - destruct (bool_decide (p ∈ inflight w)) eqn:Hp; [|done].
    injection Hstep as <-. apply bool_decide_eq_true in Hp.
    by apply loading_inv_settle.
Qed.

Lemma reachable_loading_inv (w : World) : reachable w → loading_inv w.
Proof.
  induction 1 as [|e w w' _ IH Hstep].
  - exact loading_inv_initial.
  - exact (loading_inv_step e w w' IH Hstep).
Qed.

Lemma parent_inv_initial : parent_inv initial_world.
Proof. intros p kids child H. simpl in H. by rewrite lookup_empty in H. Qed.

Lemma with_parentId_parent (p : Z) (data : list BlogData) (child : BlogData) :
  child ∈ map (with_parentId p) data → parentId child = Some p.
Proof.
  intros Hin. apply list_elem_of_In, in_map_iff in Hin.
  destruct Hin as (b & <- & _). reflexivity.
Qed.

Lemma parent_inv_settle (p : Pending) (r : Response) (w : World) :
  parent_inv w → parent_inv (resume p r (take_inflight p w)).
Proof.
  intros Hinv q kids child. destruct p as [|id0| |]; simpl.
  - destruct r; simpl; apply Hinv.
  - destruct r as [data|err]; simpl; [|apply Hinv].
    rewrite lookup_insert. destruct (decide (id0 = q)) as [->|Hne].
    + intros [= <-]. apply with_parentId_parent.
    + apply Hinv.
  - destruct r; simpl; apply Hinv.
  - by rewrite lookup_empty.
Qed.

Lemma parent_inv_step (e : Event) (w w' : World) :
  parent_inv w → step e w = Some w' → parent_inv w'.
Proof.
  intros Hinv Hstep. destruct e as [blog|id confirmed|q|p r]; simpl in Hstep.
  - injection Hstep as <-. intros q kids child.
    rewrite toggleExpand_subblogs. apply Hinv.
  - injection Hstep as <-. by destruct confirmed.
  - injection Hstep as <-. exact Hinv.
  - destruct (bool_decide (p ∈ inflight w)); [|done].
    injection Hstep as <-. by apply parent_inv_settle.
Qed.

Lemma run_reachable (es : list Event) (w w' : World) :
  reachable w → run es w = Some w' → reachable w'.
Proof.
  revert w. induction es as [|e es IH]; intros w Hw Hrun; simpl in Hrun.
  - by injection Hrun as <-.
  - destruct (step e w) as [w1|] eqn:Hstep; [|done].
    exact (IH w1 (reachable_step e w w1 Hw Hstep) Hrun).
Qed.

Lemma cached_world_run :
  run [Toggle blog_zine; Settle (AwaitSubblogs 1) (Resolved [blog_child])]
      initial_world = Some cached_world.
Proof. vm_compute. reflexivity. Qed.

Lemma cached_world_reachable : reachable cached_world.
Proof. exact (run_reachable _ _ _ reachable_init cached_world_run). Qed.

Lemma settle_subblogs_loading (id : Z) (r : Response) (w w' : World) :
  step (Settle (AwaitSubblogs id) r) w = Some w' →
  is_loading (state w') id = false
  ∧ inflight w' = remove_first (AwaitSubblogs id) (inflight w)
  ∧ requests w' = requests w
  ∧ expandedBlogIds (state w') = expandedBlogIds (state w).
Proof.
  simpl. destruct (bool_decide _); [|done]. intros [= <-].
  destruct r; simpl; split_and!; try done;
    unfold is_loading; simpl; by rewrite lookup_insert_eq.
Qed.

(** ** Cache keys and loading flags *)

(** C10: in every reachable world, each node stored in the children cache
    under key [p] has [parentId] equal to [p]. *)
Theorem cached_child_parent (w : World) (p : Z) (kids : list BlogData)
    (child : BlogData) :
  reachable w →
  subblogs (state w) !! p = Some kids →
  child ∈ kids →
  parentId child = Some p.
Proof.
  intros Hw. revert p kids child. fold (parent_inv w).
  induction Hw as [|e w w' _ IH Hstep].
  - exact parent_inv_initial.
  - exact (parent_inv_step e w w' IH Hstep).
Qed.

Lemma cached_child_parent_witness :
  parentId (with_parentId 1 blog_child) = Some 1.
Proof.
  apply (cached_child_parent cached_world 1 [with_parentId 1 blog_child]).
  - exact cached_world_reachable.
  - vm_compute. reflexivity.
  - apply list_elem_of_In. simpl. left. reflexivity.
Defined.

(** C8: in every reachable world [loading[id]] is truthy exactly while a
    child fetch for [id] is in flight; starting the fetch sets it, and
    once the fetch settles, by success or by failure, it is false and no
    fetch for [id] is left in flight. *)
Theorem loading_only_while_in_flight (w : World) (id : Z) :
  reachable w →
  (is_loading (state w) id = true ↔ AwaitSubblogs id ∈ inflight w)
  ∧ is_loading (state (fetchSubblogs id w)) id = true
  ∧ (AwaitSubblogs id ∈ inflight (fetchSubblogs id w))
  ∧ ∀ r w', step (Settle (AwaitSubblogs id) r) w = Some w' →
      is_loading (state w') id = false
      ∧ AwaitSubblogs id ∉ inflight w'.
Proof.
  intros Hw. pose proof (reachable_loading_inv w Hw id) as Hinv.
  split_and!.
  - rewrite outstanding_in, Hinv.
    destruct (is_loading (state w) id); split; (done || lia).
  - apply fetchSubblogs_marks_loading.
  - destruct (is_loading (state w) id) eqn:L.
    + rewrite fetchSubblogs_busy by done.
      apply outstanding_in. rewrite Hinv, ?L. lia.
    + rewrite fetchSubblogs_idle by done. simpl.
      apply elem_of_app. right. by apply list_elem_of_singleton.
  - intros r w' Hstep.
    destruct (settle_subblogs_loading id r w w' Hstep) as (Hl & Hfl & _).
    split; [exact Hl|].
    rewrite count_pos, Hfl, count_remove_first, decide_True by done.
    unfold outstanding in Hinv. rewrite Hinv.
    destruct (is_loading (state w) id); simpl; lia.
Qed.

Lemma loading_world_reachable : reachable loading_world.
Proof.
  exact (reachable_step (Toggle blog_plain) cached_world loading_world
           cached_world_reachable eq_refl).
Qed.

Lemma loading_only_while_in_flight_witness :
  (is_loading (state loading_world) 2 = true
   ↔ AwaitSubblogs 2 ∈ inflight loading_world)
  ∧ ∀ r w', step (Settle (AwaitSubblogs 2) r) loading_world = Some w' →
      is_loading (state w') 2 = false ∧ AwaitSubblogs 2 ∉ inflight w'.
Proof.
  pose proof (loading_only_while_in_flight loading_world 2
                loading_world_reachable) as (H1 & _ & _ & H4).
  exact (conj H1 H4).
Defined.

(** ** Fetch on expand *)

Lemma toggleExpand_idle_requests (blog : BlogData) (w : World) :
  blogID blog ∉ expandedBlogIds (state w) →
  is_loading (state w) (blogID blog) = false →
  requests (toggleExpand blog w) = requests w ++ [ReqChildren (blogID blog)]
  ∧ is_loading (state (toggleExpand blog w)) (blogID blog) = true
  ∧ (blogID blog ∈ expandedBlogIds (state (toggleExpand blog w))).
Proof.
  intros Hid L. rewrite toggleExpand_expand by done.
  rewrite fetchSubblogs_idle by done. simpl. split_and!.
  - done.
  - apply is_loading_true. simpl. apply lookup_insert_eq.
  - apply elem_of_union_l. by apply elem_of_singleton.
Qed.

Lemma toggleExpand_collapse_facts (blog : BlogData) (w : World) :
  blogID blog ∈ expandedBlogIds (state w) →
  requests (toggleExpand blog w) = requests w
  ∧ inflight (toggleExpand blog w) = inflight w
  ∧ is_loading (state (toggleExpand blog w)) (blogID blog)
    = is_loading (state w) (blogID blog)
  ∧ subblogs (state (toggleExpand blog w)) = subblogs (state w)
  ∧ (blogID blog ∉ expandedBlogIds (state (toggleExpand blog w))).
Proof.
  intros Hid. rewrite toggleExpand_collapse by done. simpl.
  split_and!; try done.
  apply not_elem_of_difference. right. by apply elem_of_singleton.
Qed.

Lemma toggleExpand_requests (blog : BlogData) (w : World) :
  requests (toggleExpand blog w)
  = requests w ++
    (if negb (is_expanded (state w) (blogID blog))
        && negb (is_loading (state w) (blogID blog))
     then [ReqChildren (blogID blog)] else []).
Proof.
  unfold toggleExpand, fetchSubblogs.
  destruct (is_expanded (state w) (blogID blog)),
           (is_loading (state w) (blogID blog)); simpl;
    by rewrite ?app_nil_r.
Qed.

Lemma fetches_requests (id : Z) (w w' : World) (rs : list Request) :
  requests w' = requests w ++ rs →
  fetches id w'
  = (fetches id w + length (filter (λ r, r = ReqChildren id) rs))%nat.
Proof. intros H. unfold fetches. by rewrite H, filter_app, length_app. Qed.

Lemma step_fetches (id : Z) (e : Event) (w w' : World) :
  step e w = Some w' →
  fetches id w'
  = (fetches id w
     + if is_expanding id e w && negb (is_loading (state w) id)
       then 1 else 0)%nat.
Proof.
  destruct e as [blog|i confirmed|q|p r]; simpl.
  - intros [= <-].
    rewrite (fetches_requests id w _ _ (toggleExpand_requests blog w)).
    f_equal. destruct (decide (blogID blog = id)) as [Heq|Hne].
    + rewrite bool_decide_eq_true_2 by done. rewrite Heq. simpl.
      destruct (negb (is_expanded (state w) id)
                && negb (is_loading (state w) id)); [|done].
      rewrite filter_cons, decide_True by done. done.
    + rewrite bool_decide_eq_false_2 by done. simpl.
      destruct (negb (is_expanded (state w) (blogID blog))
                && negb (is_loading (state w) (blogID blog))); [|done].
      rewrite filter_cons, decide_False by congruence. done.
  - intros [= <-]. destruct confirmed.
    + by rewrite (fetches_requests id w _ [ReqDelete i]).
    + by rewrite Nat.add_0_r.
  - intros [= <-]. by rewrite Nat.add_0_r.
  - destruct (bool_decide (p ∈ inflight w)); [|done]. intros [= <-].
    destruct p, r;
      first [ by rewrite Nat.add_0_r
            | by rewrite (fetches_requests id w _ [ReqList]) ].
Qed.

Lemma step_stays_idle (id : Z) (e : Event) (w w' : World) :
  step e w = Some w' →
  is_expanding id e w = false →
  is_loading (state w) id = false →
  is_loading (state w') id = false.
Proof.
  destruct e as [blog|i confirmed|q|p r]; simpl.
  - intros [= <-] He L. unfold toggleExpand.
    destruct (is_expanded (state w) (blogID blog)) eqn:E; [done|].
    unfold fetchSubblogs.
    destruct (is_loading (state w) (blogID blog)) eqn:L'; [done|].
    destruct (decide (blogID blog = id)) as [Heq|Hne].
    + rewrite Heq in E. rewrite bool_decide_eq_true_2, E in He by done.
      done.
    + unfold is_loading in *. simpl. by rewrite lookup_insert_ne.
  - intros [= <-] _ L. by destruct confirmed.
  - by intros [= <-] _ L.
  - destruct (bool_decide (p ∈ inflight w)); [|done]. intros [= <-] _ L.
    destruct p as [|i| |], r; try done;
      unfold is_loading in *; simpl; rewrite lookup_insert;
      by destruct (decide (i = id)).
Qed.

Lemma run_fetches_le (id : Z) (es : list Event) (w w' : World) :
  run es w = Some w' →
  (fetches id w ≤ fetches id w'
   ∧ fetches id w' ≤ fetches id w + expansions id es w)%nat.
Proof.
  revert w. induction es as [|e es IH]; intros w; simpl.
  - intros [= <-]. lia.
  - destruct (step e w) as [w1|] eqn:Hstep; [|done]. intros Hrun.
    pose proof (step_fetches id e w w1 Hstep) as H1.
    destruct (IH w1 Hrun) as [H2 H3].
    destruct (is_expanding id e w), (is_loading (state w) id);
      simpl in H1; lia.
Qed.

Lemma run_fetches_once (id : Z) (es : list Event) (w w' : World) :
  is_loading (state w) id = false →
  run es w = Some w' →
  expansions id es w = 1%nat →
  fetches id w' = (fetches id w + 1)%nat.
Proof.
  revert w. induction es as [|e es IH]; intros w L; simpl; [done|].
  destruct (step e w) as [w1|] eqn:Hstep; [|done]. intros Hrun Hexp.
  pose proof (step_fetches id e w w1 Hstep) as H1. rewrite L in H1.
  destruct (is_expanding id e w) eqn:E; simpl in H1.
  - destruct (run_fetches_le id es w1 w' Hrun). lia.
  - rewrite (IH w1 (step_stays_idle id e w w1 Hstep E L) Hrun) by lia. lia.
Qed.

(** C3: expanding a node that is collapsed and has no fetch in flight
    (its expand button is enabled) sends exactly one child fetch keyed by
    its id and raises its loading flag; while the flag is raised, no
    further expand attempt on that node sends anything, whether made by
    [fetchSubblogs] directly or through collapse-and-expand toggles.
    Along any run that starts with no fetch in flight for the node, in
    particular any run from the initial world, a node expanded exactly
    once has exactly one child fetch sent for it, a node is never fetched
    more often than it is expanded, and no reachable world has more than
    one child fetch in flight for it. *)
Theorem expand_once_one_fetch (blog : BlogData) (w : World) :
  blogID blog ∉ expandedBlogIds (state w) →
  is_loading (state w) (blogID blog) = false →
  requests (toggleExpand blog w) = requests w ++ [ReqChildren (blogID blog)]
  ∧ is_loading (state (toggleExpand blog w)) (blogID blog) = true
  ∧ requests (fetchSubblogs (blogID blog) (toggleExpand blog w))
    = requests w ++ [ReqChildren (blogID blog)]
  ∧ requests (toggleExpand blog (toggleExpand blog (toggleExpand blog w)))
    = requests w ++ [ReqChildren (blogID blog)]
  ∧ (∀ blog' w', blogID blog' = blogID blog →
       is_loading (state w') (blogID blog) = true →
       requests (toggleExpand blog' w') = requests w'
       ∧ fetchSubblogs (blogID blog) w' = w')
  ∧ (∀ es w0 w1, is_loading (state w0) (blogID blog) = false →
       run es w0 = Some w1 →
       (expansions (blogID blog) es w0 = 1%nat →
        fetches (blogID blog) w1 = (fetches (blogID blog) w0 + 1)%nat)
       ∧ (fetches (blogID blog) w1
          ≤ fetches (blogID blog) w0 + expansions (blogID blog) es w0)%nat)
  ∧ (∀ es w1, run es initial_world = Some w1 →
       expansions (blogID blog) es initial_world = 1%nat →
       fetches (blogID blog) w1 = 1%nat)
  ∧ (∀ w', reachable w' → (outstanding (blogID blog) w' ≤ 1)%nat).
Proof.
  intros Hid L.
  destruct (toggleExpand_idle_requests blog w Hid L) as (Hreq & Hl & Hexp).
  destruct (toggleExpand_collapse_facts blog _ Hexp)
    as (Hreq2 & _ & Hl2 & _ & _).
  split_and!.
  - exact Hreq.
  - exact Hl.
  - by rewrite fetchSubblogs_busy.
  - rewrite toggleExpand_busy_requests by (by rewrite Hl2).
    by rewrite Hreq2.
  - intros blog' w' Heq L'. split.
    + apply toggleExpand_busy_requests. by rewrite Heq.
    + by apply fetchSubblogs_busy.
  - intros es w0 w1 L0 Hrun. split.
    + by apply run_fetches_once.
    + by apply run_fetches_le.
  - intros es w1 Hrun Hexp1.
    by rewrite (run_fetches_once _ es initial_world w1).
  - intros w' Hw'. rewrite (reachable_loading_inv w' Hw').
    destruct (is_loading (state w') (blogID blog)); lia.
Qed.

Lemma expand_once_one_fetch_witness :
  requests (toggleExpand blog_plain cached_world)
  = requests cached_world ++ [ReqChildren 2]
  ∧ requests (toggleExpand blog_plain
                (toggleExpand blog_plain (toggleExpand blog_plain cached_world)))
    = requests cached_world ++ [ReqChildren 2].
Proof.
  assert (Hid : blogID blog_plain ∉ expandedBlogIds (state cached_world))
    by (apply is_expanded_false; vm_compute; reflexivity).
  assert (L : is_loading (state cached_world) (blogID blog_plain) = false)
    by (vm_compute; reflexivity).
  pose proof (expand_once_one_fetch blog_plain cached_world Hid L)
    as (H1 & _ & _ & H4 & _).
  exact (conj H1 H4).
Defined.




(** ** Delete *)

Lemma elem_of_snoc (p : Pending) (l : list Pending) : p ∈ l ++ [p].
Proof. apply elem_of_app. right. by apply list_elem_of_singleton. Qed.

Lemma step_settle (p : Pending) (r : Response) (w : World) :
  p ∈ inflight w →
  step (Settle p r) w = Some (resume p r (take_inflight p w)).
Proof. intros Hp. simpl. by rewrite bool_decide_eq_true_2. Qed.

Lemma step_settle_inv (p : Pending) (r : Response) (w w' : World) :
  step (Settle p r) w = Some w' →
  p ∈ inflight w ∧ w' = resume p r (take_inflight p w).
Proof.
  simpl. destruct (bool_decide (p ∈ inflight w)) eqn:Hp; [|done].
  intros [= <-]. split; [|done]. by apply bool_decide_eq_true in Hp.
Qed.

Lemma run_cons_some (e : Event) (es : list Event) (w w' : World) :
  step e w = Some w' → run (e :: es) w = run es w'.
Proof. intros H. simpl. by rewrite H. Qed.

Lemma run_settle (p : Pending) (r : Response) (es : list Event) (w : World) :
  p ∈ inflight w →
  run (Settle p r :: es) w = run es (resume p r (take_inflight p w)).
Proof. intros Hp. apply run_cons_some. by apply step_settle. Qed.

Lemma handleDelete_refetched_clears (r : Response) (w : World) :
  expandedBlogIds (state (handleDelete_refetched r w)) = ∅
  ∧ subblogs (state (handleDelete_refetched r w)) = ∅
  ∧ requests (handleDelete_refetched r w) = requests w
  ∧ blogs (state (handleDelete_refetched r w))
    = match r with
      | Resolved data => data
      | Rejected _ => blogs (state w)
      end.
Proof. by destruct r. Qed.

(** C4: without confirmation [handleDelete] does nothing at all; with it,
    the delete request is sent, and once that request has succeeded and
    the handler has run to its end, exactly one fetch of the top-level
    list has been sent after it and the expansion set and the children
    cache are both empty, whatever the outcome of that fetch and whatever
    other events ran in between. *)
Theorem delete_confirmed_resets (id : Z) (data : list BlogData)
    (r : Response) (w : World) :
  handleDelete id false w = w
  ∧ requests (handleDelete id true w) = requests w ++ [ReqDelete id]
  ∧ state (handleDelete id true w) = state w
  ∧ (∃ w', run [Delete id true; Settle (AwaitDelete id) (Resolved data);
                Settle AwaitRefetch r] w = Some w'
       ∧ expandedBlogIds (state w') = ∅
       ∧ subblogs (state w') = ∅
       ∧ requests w' = requests w ++ [ReqDelete id; ReqList])
  ∧ (∀ w0 w1, step (Settle (AwaitDelete id) (Resolved data)) w0 = Some w1 →
       requests w1 = requests w0 ++ [ReqList]
       ∧ state w1 = state w0
       ∧ (AwaitRefetch ∈ inflight w1))
  ∧ (∀ w0 w1, step (Settle AwaitRefetch r) w0 = Some w1 →
       expandedBlogIds (state w1) = ∅
       ∧ subblogs (state w1) = ∅
       ∧ requests w1 = requests w0).
Proof.
  split_and!; try reflexivity.
  - rewrite (run_cons_some _ _ _ (handleDelete id true w)) by reflexivity.
    rewrite run_settle by apply elem_of_snoc.
    rewrite run_settle by apply elem_of_snoc.
    eexists. split; [reflexivity|].
    set (w2 := take_inflight AwaitRefetch _).
    change (resume AwaitRefetch r w2) with (handleDelete_refetched r w2).
    destruct (handleDelete_refetched_clears r w2) as (He & Hs & Hr & _).
    split_and!; [exact He | exact Hs |].
    rewrite Hr. simpl. by rewrite <- app_assoc.
  - intros w0 w1 [_ ->]%step_settle_inv. simpl.
    split_and!; try done. apply elem_of_snoc.
  - intros w0 w1 [_ ->]%step_settle_inv.
    destruct (handleDelete_refetched_clears r (take_inflight AwaitRefetch w0))
      as (He & Hs & Hr & _).
    by split_and!.
Qed.

Lemma delete_confirmed_resets_witness :
  ∃ w', step (Settle AwaitRefetch (Rejected "timeout"))
             (suspend AwaitRefetch cached_world) = Some w'
        ∧ expandedBlogIds (state w') = ∅
        ∧ subblogs (state w') = ∅.
Proof.
  eexists. split; [vm_compute; reflexivity|].
  pose proof (delete_confirmed_resets 1 [] (Rejected "timeout") cached_world)
    as (_ & _ & _ & _ & _ & H).
  destruct (H (suspend AwaitRefetch cached_world) _ eq_refl) as (He & Hs & _).
  exact (conj He Hs).
Defined.

(** C6: when the delete request fails, the error is logged to the console
    and shown in an alert, and nothing else happens: the whole component
    state (expansion set, children cache, top-level list) is what it was
    when the request settled, no request is sent and no refetch is left
    waiting. *)
Theorem delete_failure_keeps_state (id : Z) (err : string) (w : World) :
  (∃ w', run [Delete id true; Settle (AwaitDelete id) (Rejected err)] w
         = Some w'
       ∧ state w' = state w
       ∧ requests w' = requests w ++ [ReqDelete id]
       ∧ console w' = console w ++ ["Error deleting blog:"%string]
       ∧ alerts w' = alerts w ++ ["Failed to delete blog"%string])
  ∧ (∀ w0 w1, step (Settle (AwaitDelete id) (Rejected err)) w0 = Some w1 →
       state w1 = state w0
       ∧ requests w1 = requests w0
       ∧ console w1 = console w0 ++ ["Error deleting blog:"%string]
       ∧ alerts w1 = alerts w0 ++ ["Failed to delete blog"%string]
       ∧ inflight w1 = remove_first (AwaitDelete id) (inflight w0)).
Proof.
  split.
  - rewrite (run_cons_some _ _ _ (handleDelete id true w)) by reflexivity.
    rewrite run_settle by apply elem_of_snoc.
    eexists. split; [reflexivity|]. by split_and!.
  - intros w0 w1 [_ ->]%step_settle_inv. by split_and!.
Qed.

Lemma delete_failure_keeps_state_witness :
  ∃ w', step (Settle (AwaitDelete 1) (Rejected "500"))
             (handleDelete 1 true cached_world) = Some w'
        ∧ state w' = state cached_world
        ∧ requests w' = requests cached_world ++ [ReqDelete 1].
Proof.
  eexists. split; [vm_compute; reflexivity|].
  destruct (proj2 (delete_failure_keeps_state 1 "500" cached_world)
              (handleDelete 1 true cached_world) _ eq_refl)
    as (Hs & Hr & _).
  split; [exact Hs | exact Hr].
Defined.

(** ** Failure of a child fetch *)

(** C7: when the child fetch sent on expand fails, the node's id stays in
    the expansion set, the children cache is left as it was (no entry is
    added for the node), the error is logged, and no further request is
    sent; the loading flag is lowered. *)
Theorem child_fetch_failure (blog : BlogData) (err : string) (w : World) :
  blogID blog ∉ expandedBlogIds (state w) →
  is_loading (state w) (blogID blog) = false →
  (∃ w', run [Toggle blog; Settle (AwaitSubblogs (blogID blog)) (Rejected err)]
             w = Some w'
       ∧ (blogID blog ∈ expandedBlogIds (state w'))
       ∧ subblogs (state w') = subblogs (state w)
       ∧ console w' = console w ++ ["Error fetching subblogs:"%string]
       ∧ requests w' = requests w ++ [ReqChildren (blogID blog)]
       ∧ is_loading (state w') (blogID blog) = false)
  ∧ (∀ w0 w1,
       step (Settle (AwaitSubblogs (blogID blog)) (Rejected err)) w0 = Some w1 →
       expandedBlogIds (state w1) = expandedBlogIds (state w0)
       ∧ subblogs (state w1) = subblogs (state w0)
       ∧ console w1 = console w0 ++ ["Error fetching subblogs:"%string]
       ∧ requests w1 = requests w0
       ∧ inflight w1 = remove_first (AwaitSubblogs (blogID blog)) (inflight w0)).
Proof.
  intros Hid L. split.
  - rewrite (run_cons_some _ _ _ (toggleExpand blog w)) by reflexivity.
    rewrite toggleExpand_expand by done.
    rewrite fetchSubblogs_idle by done.
    rewrite run_settle by apply elem_of_snoc.
    eexists. split; [reflexivity|]. simpl. split_and!; try done.
    + apply elem_of_union_l. by apply elem_of_singleton.
    + unfold is_loading. simpl. by rewrite lookup_insert_eq.
  - intros w0 w1 [_ ->]%step_settle_inv. by split_and!.
Qed.

Lemma child_fetch_failure_witness :
  ∃ w', run [Toggle blog_plain; Settle (AwaitSubblogs 2) (Rejected "500")]
            cached_world = Some w'
        ∧ (2 ∈ expandedBlogIds (state w'))
        ∧ subblogs (state w') = subblogs (state cached_world).
Proof.
  assert (Hid : blogID blog_plain ∉ expandedBlogIds (state cached_world))
    by (apply is_expanded_false; vm_compute; reflexivity).
  assert (L : is_loading (state cached_world) (blogID blog_plain) = false)
    by (vm_compute; reflexivity).
  destruct (proj1 (child_fetch_failure blog_plain "500" cached_world Hid L))
    as (w' & Hrun & Hexp & Hsub & _).
  exists w'. split_and!; [exact Hrun | exact Hexp | exact Hsub].
Defined.

(** ** The row renderer on a node without children *)

Lemma BlogRow_leaf (fuel : nat) (s : State) (blog : BlogData) (level : nat) :
  hasSubblogs s (blogID blog) = false →
  BlogRow (S fuel) s blog level = Some [row_of s blog level].
Proof. intros H. simpl. rewrite H. by rewrite andb_false_r. Qed.

Lemma hasSubblogs_empty (s : State) (id : Z) :
  subblogs s !! id = Some [] → hasSubblogs s id = false.
Proof. intros H. unfold hasSubblogs. by rewrite H. Qed.

Lemma row_icon_expanded (s : State) (blog : BlogData) (level : nat) :
  is_loading s (blogID blog) = false →
  blogID blog ∈ expandedBlogIds s →
  row_icon (row_of s blog level) = ChevronDown.
Proof.
  intros Hl He%is_expanded_true. unfold row_of, row_icon.
  by rewrite Hl, He.
Qed.

Lemma fetchSubblogs_resume_resolved (id : Z) (data : list BlogData)
    (w : World) :
  subblogs (state (fetchSubblogs_resume id (Resolved data) w)) !! id
  = Some (map (with_parentId id) data)
  ∧ expandedBlogIds (state (fetchSubblogs_resume id (Resolved data) w))
    = expandedBlogIds (state w)
  ∧ is_loading (state (fetchSubblogs_resume id (Resolved data) w)) id = false.
Proof.
  simpl. split_and!; [apply lookup_insert_eq | done |].
  unfold is_loading. simpl. by rewrite lookup_insert_eq.
Qed.

(** The recursion of [BlogRow] follows the cache, not the tree: on
    [cyclic_state] no nesting budget is enough. *)
Remark BlogRow_cyclic (fuel level : nat) :
  BlogRow fuel cyclic_state blog_zine level = None.
Proof.
  revert level. induction fuel as [|fuel IH]; intros level; [done|].
  change (BlogRow (S fuel) cyclic_state blog_zine level)
    with (rows ← mapM (λ subblog, BlogRow fuel cyclic_state subblog (S level))
                      [blog_zine];
          Some (row_of cyclic_state blog_zine level :: concat rows)).
  simpl. by rewrite IH.
Qed.

(** C9: when the child fetch of an expanded node returns the empty array,
    the node stays expanded, the cache maps its id to the empty sequence,
    and the renderer, given any positive nesting budget, returns for that
    node exactly its own row, with the collapse chevron and no child
    rows; more generally it returns that single row in every state whose
    cache maps the node's id to the empty sequence. *)
Theorem empty_children_render (blog : BlogData) (w : World)
    (fuel level : nat) :
  blogID blog ∈ expandedBlogIds (state w) →
  AwaitSubblogs (blogID blog) ∈ inflight w →
  (∃ w', step (Settle (AwaitSubblogs (blogID blog)) (Resolved [])) w = Some w'
       ∧ (blogID blog ∈ expandedBlogIds (state w'))
       ∧ subblogs (state w') !! blogID blog = Some []
       ∧ BlogRow (S fuel) (state w') blog level
         = Some [row_of (state w') blog level]
       ∧ row_icon (row_of (state w') blog level) = ChevronDown)
  ∧ (∀ s, subblogs s !! blogID blog = Some [] →
       BlogRow (S fuel) s blog level = Some [row_of s blog level]).
Proof.
  intros Hexp Hin. split.
  - rewrite step_settle by done. eexists. split; [reflexivity|].
    set (w0 := take_inflight _ w).
    change (resume _ _ w0)
      with (fetchSubblogs_resume (blogID blog) (Resolved []) w0).
    destruct (fetchSubblogs_resume_resolved (blogID blog) [] w0)
      as (Hsub & He & Hl).
    simpl map in Hsub. split_and!.
    + by rewrite He.
    + exact Hsub.
    + apply BlogRow_leaf. by apply hasSubblogs_empty.
    + apply row_icon_expanded; [exact Hl | by rewrite He].
  - intros s Hs. apply BlogRow_leaf. by apply hasSubblogs_empty.
Qed.

Lemma empty_children_render_witness :
  ∃ w', step (Settle (AwaitSubblogs 2) (Resolved []))
             (toggleExpand blog_plain cached_world) = Some w'
        ∧ BlogRow 1 (state w') blog_plain 0
          = Some [row_of (state w') blog_plain 0].
Proof.
  assert (Hexp : blogID blog_plain
                 ∈ expandedBlogIds (state (toggleExpand blog_plain cached_world)))
    by (apply is_expanded_true; vm_compute; reflexivity).
  assert (Hin : AwaitSubblogs (blogID blog_plain)
                ∈ inflight (toggleExpand blog_plain cached_world))
    by (apply list_elem_of_In; vm_compute; auto).
  destruct (proj1 (empty_children_render blog_plain
                     (toggleExpand blog_plain cached_world) 0 0 Hexp Hin))
    as (w' & Hstep & _ & _ & Hrow & _).
  exists w'. split; [exact Hstep | exact Hrow].
Defined.

(** ** The search filter *)

Section Strings.

Implicit Types (s t pre mid post : string) (a b : ascii).

Lemma append_nil s : EmptyString +:+ s = s.
Proof. reflexivity. Qed.

Lemma append_cons a s t : String a s +:+ t = String a (s +:+ t).
Proof. reflexivity. Qed.

Lemma startsWith_spec s t :
  startsWith s t = true ↔ ∃ post, s = t +:+ post.
Proof.
  revert s. induction t as [|b t IH]; intros s; simpl.
  - split; [intros _; by exists s | done].
  - destruct s as [|a s].
    + split; [done | by intros [post ?]].
    + destruct (decide (a = b)) as [->|Hne].
      * rewrite IH. split; intros [post Hp]; exists post;
          rewrite append_cons in *; congruence.
      * split; [done | intros [post Hp]; rewrite append_cons in Hp;
                       congruence].
Qed.

Lemma includes_spec s t :
  includes s t = true ↔ ∃ pre post, s = pre +:+ t +:+ post.
Proof.
  split.
  - induction s as [|a s IH]; simpl; rewrite orb_true_iff.
    + intros [H|H]; [|done]. apply startsWith_spec in H as [post ->].
      by exists EmptyString, post.
    + intros [H|H].
      * apply startsWith_spec in H as [post ->]. by exists EmptyString, post.
      * destruct (IH H) as (pre & post & ->). by exists (String a pre), post.
  - intros (pre & post & ->). induction pre as [|a pre IH]; simpl.
    + destruct (t +:+ post) eqn:E; simpl; apply orb_true_iff; left;
        apply startsWith_spec; exists post; by rewrite E.
    + apply orb_true_iff. right. exact IH.
Qed.

Lemma ascii_toLowerCase_app s t :
  ascii_toLowerCase (s +:+ t) = ascii_toLowerCase s +:+ ascii_toLowerCase t.
Proof. induction s as [|a s IH]; simpl; [done | by rewrite IH]. Qed.

Lemma ascii_toLowerCase_split s pre post :
  ascii_toLowerCase s = pre +:+ post →
  ∃ s1 s2, s = s1 +:+ s2 ∧ ascii_toLowerCase s1 = pre ∧ ascii_toLowerCase s2 = post.
Proof.
  revert s. induction pre as [|c pre IH]; intros s H; simpl in H.
  - by exists EmptyString, s.
  - destruct s as [|a s]; simpl in H; [done|].
    injection H as Ha Hs. destruct (IH s Hs) as (s1 & s2 & -> & H1 & H2).
    exists (String a s1), s2. simpl. by rewrite Ha, H1.
Qed.

Lemma is_upper_bounds a :
  is_upper a = true ↔ (65 ≤ nat_of_ascii a ≤ 90)%nat.
Proof.
  unfold is_upper. rewrite andb_true_iff, !Nat.leb_le. tauto.
Qed.

Lemma lower_ascii_upper a :
  is_upper a = true →
  nat_of_ascii (lower_ascii a) = (nat_of_ascii a + 32)%nat.
Proof.
  intros H. unfold lower_ascii. rewrite H.
  apply nat_ascii_embedding. apply is_upper_bounds in H. lia.
Qed.

Lemma lower_ascii_other a : is_upper a = false → lower_ascii a = a.
Proof. intros H. unfold lower_ascii. by rewrite H. Qed.

Lemma nat_of_ascii_inj a b : nat_of_ascii a = nat_of_ascii b → a = b.
Proof.
  intros H. rewrite <- (ascii_nat_embedding a), <- (ascii_nat_embedding b).
  by rewrite H.
Qed.

Lemma lower_ascii_same_letter a b :
  lower_ascii a = lower_ascii b ↔ same_letter a b.
Proof.
  unfold same_letter. rewrite <- !is_upper_bounds. split.
  - intros H. apply (f_equal nat_of_ascii) in H.
    destruct (is_upper a) eqn:Ua, (is_upper b) eqn:Ub.
    + rewrite !lower_ascii_upper in H by done.
      left. apply nat_of_ascii_inj. lia.
    + rewrite lower_ascii_upper, (lower_ascii_other b) in H by done.
      right. left. split; [done | lia].
    + rewrite (lower_ascii_other a), lower_ascii_upper in H by done.
      right. right. split; [done | lia].
    + rewrite !lower_ascii_other in H by done.
      left. by apply nat_of_ascii_inj.
  - intros [->|[[Ua Hb]|[Ub Ha]]]; [done| |]; apply nat_of_ascii_inj.
    + rewrite lower_ascii_upper by done. rewrite lower_ascii_other; [lia|].
      apply not_true_iff_false. rewrite is_upper_bounds.
      apply is_upper_bounds in Ua. lia.
    + rewrite (lower_ascii_upper b) by done. rewrite lower_ascii_other; [lia|].
      apply not_true_iff_false. rewrite is_upper_bounds.
      apply is_upper_bounds in Ub. lia.
Qed.

Lemma ascii_toLowerCase_ci_equal s t :
  ascii_toLowerCase s = ascii_toLowerCase t ↔ ci_equal s t.
Proof.
  revert t. induction s as [|a s IH]; intros [|b t]; simpl; try done.
  rewrite <- IH, <- lower_ascii_same_letter.
  split; [intros [= ? ?]; done | intros [-> ->]; done].
Qed.

Lemma or_else_empty s : or_else s EmptyString = s.
Proof. unfold or_else. by destruct (decide (s = EmptyString)) as [->|]. Qed.

Lemma includes_lower_ci s t :
  includes (ascii_toLowerCase s) (ascii_toLowerCase t) = true ↔ ci_contains s t.
Proof.
  rewrite includes_spec. unfold ci_contains. split.
  - intros (pre & post & H).
    apply ascii_toLowerCase_split in H as (s1 & s23 & -> & H1 & H23).
    apply ascii_toLowerCase_split in H23 as (s2 & s3 & -> & H2 & H3).
    exists s1, s2, s3. split; [done|]. by apply ascii_toLowerCase_ci_equal.
  - intros (pre & mid & post & -> & H%ascii_toLowerCase_ci_equal).
    exists (ascii_toLowerCase pre), (ascii_toLowerCase post).
    by rewrite !ascii_toLowerCase_app, H.
Qed.

End Strings.

Lemma ascii_toLowerCase_agrees : agrees_on_ascii ascii_toLowerCase.
Proof. by intros s _. Qed.

Lemma final_sigma_lower_agrees : agrees_on_ascii final_sigma_lower.
Proof.
  intros s Hs. unfold final_sigma_lower.
  destruct (decide (s = "ΑΣΑ"%string)) as [->|_]; [done|].
  by destruct (decide (s = "ΑΣ"%string)) as [->|_].
Qed.

Lemma matches_query_lowered (toLowerCase : string → string) (q : string)
    (blog : BlogData) :
  matches_query toLowerCase q blog = true
  ↔ lowered_contains toLowerCase (blogName blog) q.
Proof.
  unfold matches_query, lowered_contains. rewrite or_else_empty.
  apply includes_spec.
Qed.

Lemma matches_query_ascii (toLowerCase : string → string) (q : string)
    (blog : BlogData) :
  agrees_on_ascii toLowerCase →
  is_ascii q = true → is_ascii (blogName blog) = true →
  matches_query toLowerCase q blog = matches_query ascii_toLowerCase q blog.
Proof.
  intros H Hq Hn. unfold matches_query. rewrite or_else_empty.
  by rewrite (H _ Hq), (H _ Hn).
Qed.

Lemma matches_query_ci (toLowerCase : string → string) (q : string)
    (blog : BlogData) :
  agrees_on_ascii toLowerCase →
  is_ascii q = true → is_ascii (blogName blog) = true →
  matches_query toLowerCase q blog = true ↔ ci_contains (blogName blog) q.
Proof.
  intros H Hq Hn. rewrite (matches_query_ascii _ _ _ H Hq Hn).
  unfold matches_query. rewrite or_else_empty. apply includes_lower_ci.
Qed.

Lemma filteredBlogs_ascii (toLowerCase : string → string) (s : State) :
  agrees_on_ascii toLowerCase →
  is_ascii (searchQuery s) = true →
  Forall (λ blog, is_ascii (blogName blog) = true) (blogs s) →
  filteredBlogs toLowerCase s = filteredBlogs ascii_toLowerCase s.
Proof.
  intros H Hq Hall. unfold filteredBlogs.
  induction Hall as [|b l Hb _ IH]; simpl; [done|].
  by rewrite (matches_query_ascii _ _ _ H Hq Hb), IH.
Qed.

Lemma table_body_ascii (toLowerCase : string → string) (fuel : nat)
    (s : State) :
  agrees_on_ascii toLowerCase →
  is_ascii (searchQuery s) = true →
  Forall (λ blog, is_ascii (blogName blog) = true) (blogs s) →
  table_body toLowerCase fuel s = table_body ascii_toLowerCase fuel s.
Proof.
  intros H Hq Hall. unfold table_body.
  by rewrite (filteredBlogs_ascii _ _ H Hq Hall).
Qed.

Lemma search_state_ascii :
  is_ascii (searchQuery search_state) = true
  ∧ Forall (λ blog, is_ascii (blogName blog) = true) (blogs search_state).
Proof. split; [done|]. by repeat constructor. Qed.

Lemma BlogRow_query (fuel : nat) (q : string) (s : State) (blog : BlogData)
    (level : nat) :
  BlogRow fuel (setSearchQuery q s) blog level = BlogRow fuel s blog level.
Proof.
  revert blog level. induction fuel as [|fuel IH]; intros blog level; [done|].
  simpl. change (is_expanded (setSearchQuery q s)) with (is_expanded s).
  change (hasSubblogs (setSearchQuery q s)) with (hasSubblogs s).
  change (row_of (setSearchQuery q s)) with (row_of s).
  destruct (is_expanded s (blogID blog) && hasSubblogs s (blogID blog));
    [|done].
  destruct (subblogs s !! blogID blog) as [kids|]; [|done].
  f_equal. induction kids as [|k kids IHk]; [done|].
  simpl. rewrite IH. destruct (BlogRow fuel s k (S level)); [|done].
  simpl. by rewrite IHk.
Qed.

Lemma filter_subsequence_where (P : BlogData → Prop) (f : BlogData → bool)
    (l : list BlogData) :
  (∀ b, b ∈ l → f b = true ↔ P b) → subsequence_where P l (List.filter f l).
Proof.
  intros Hf. induction l as [|b l IH]; simpl.
  - constructor.
  - assert (IH' : subsequence_where P l (List.filter f l))
      by (apply IH; intros b' Hb'; apply Hf; by right).
    destruct (f b) eqn:E.
    + apply sw_keep; [apply Hf; [by left | done] | exact IH'].
    + apply sw_drop; [|exact IH']. rewrite <- Hf by (by left). congruence.
Qed.

(** C5, as stated, fails: the runtime lowers "ΑΣΑ" to "ασα" and "ΑΣ" to
    "ας", so with the top-level blog "ΑΣΑ" and the query "ΑΣ" the filter
    returns the empty list although the name begins with the query; the
    result is then not the subsequence of the blogs whose name contains
    the query, for any notion of containment that admits a literal
    occurrence. *)
Lemma search_filter_final_sigma :
  agrees_on_ascii final_sigma_lower
  ∧ final_sigma_lower "ΑΣΑ" = "ασα"%string
  ∧ final_sigma_lower "ΑΣ" = "ας"%string
  ∧ blogs sigma_state = [blog_sigma]
  ∧ blogName blog_sigma = (searchQuery sigma_state +:+ "Α")%string
  ∧ filteredBlogs final_sigma_lower sigma_state = []
  ∧ ∀ contains : string → string → Prop,
      (∀ pre q post, contains (pre +:+ q +:+ post) q) →
      ¬ subsequence_where
          (λ blog, contains (blogName blog) (searchQuery sigma_state))
          (blogs sigma_state)
          (filteredBlogs final_sigma_lower sigma_state).
Proof.
  split_and!; try reflexivity.
  - exact final_sigma_lower_agrees.
  - intros contains Hlit Hsub.
    change (filteredBlogs final_sigma_lower sigma_state)
      with (@nil BlogData) in Hsub.
    change (blogs sigma_state) with [blog_sigma] in Hsub.
    inversion Hsub as [| |b l l' Hnot _]; subst.
    apply Hnot. exact (Hlit EmptyString "ΑΣ"%string "Α"%string).
Qed.

(** C5, amended: for every query, [filteredBlogs] is exactly the
    subsequence of the top-level blogs whose lower-cased name contains
    the lower-cased query as a substring, whatever the runtime's
    [toLowerCase] does; when the query and the names are made of ASCII
    characters this is the subsequence of the blogs whose name contains
    the query up to the case of letters; rows of expanded children are
    rendered from the cache whatever the query; the query "zine" keeps
    "Zine Robotics" and drops "Blog", while the cached child "Blog" of
    the kept node is still rendered. *)
Theorem search_filter_lowered (toLowerCase : string → string) :
  agrees_on_ascii toLowerCase →
  (∀ s, subsequence_where
          (λ blog, lowered_contains toLowerCase (blogName blog)
                                    (searchQuery s))
          (blogs s) (filteredBlogs toLowerCase s))
  ∧ (∀ s, is_ascii (searchQuery s) = true →
          Forall (λ blog, is_ascii (blogName blog) = true) (blogs s) →
          subsequence_where
            (λ blog, ci_contains (blogName blog) (searchQuery s))
            (blogs s) (filteredBlogs toLowerCase s))
  ∧ (∀ q blog, is_ascii q = true → is_ascii (blogName blog) = true →
       matches_query toLowerCase q blog = true
       ↔ ci_contains (blogName blog) q)
  ∧ (∀ fuel q s blog level,
       BlogRow fuel (setSearchQuery q s) blog level = BlogRow fuel s blog level)
  ∧ table_body toLowerCase 2 search_state
    = Some [row_of search_state blog_zine 0;
            row_of search_state (with_parentId 1 blog_child) 1]
  ∧ matches_query toLowerCase "zine" blog_zine = true
  ∧ matches_query toLowerCase "zine" blog_plain = false.
Proof.
  intros Hlow. split_and!.
  - intros s. apply filter_subsequence_where. intros b _.
    apply matches_query_lowered.
  - intros s Hq Hall. apply filter_subsequence_where. intros b Hb.
    apply (matches_query_ci _ _ _ Hlow Hq).
    by apply (proj1 (Forall_forall _ _) Hall).
  - intros q blog. by apply matches_query_ci.
  - exact BlogRow_query.
  - destruct search_state_ascii as [Hq Hall].
    rewrite (table_body_ascii _ _ _ Hlow Hq Hall). vm_compute. reflexivity.
  - by rewrite (matches_query_ascii _ _ _ Hlow).
  - by rewrite (matches_query_ascii _ _ _ Hlow).
Qed.

Lemma search_filter_lowered_witness :
  filteredBlogs ascii_toLowerCase search_state = [blog_zine]
  ∧ subsequence_where
      (λ blog, ci_contains (blogName blog) (searchQuery search_state))
      (blogs search_state) (filteredBlogs ascii_toLowerCase search_state).
Proof.
  split; [vm_compute; reflexivity|].
  destruct search_state_ascii as [Hq Hall].
  exact (proj1 (proj2 (search_filter_lowered ascii_toLowerCase
                         ascii_toLowerCase_agrees))
           search_state Hq Hall).
Defined.

(** * Further properties of the component *)

(** ** More on the search filter *)

Lemma string_app_assoc (a b c : string) : (a +:+ b) +:+ c = a +:+ b +:+ c.
Proof.
  induction a as [|x a IH]; [done|].
  rewrite !append_cons. by rewrite IH.
Qed.

Lemma includes_trans (a b c : string) :
  includes a b = true → includes b c = true → includes a c = true.
Proof.
  rewrite !includes_spec.
  intros (pre & post & ->) (pre' & post' & ->).
  exists (pre +:+ pre'), (post' +:+ post).
  by rewrite !string_app_assoc.
Qed.

Lemma includes_empty (a : string) : includes a EmptyString = true.
Proof. apply includes_spec. by exists EmptyString, a. Qed.

Lemma matches_query_narrow (toLowerCase : string → string) (q1 q2 : string)
    (blog : BlogData) :
  agrees_on_ascii toLowerCase →
  is_ascii q1 = true → is_ascii q2 = true →
  ci_contains q1 q2 →
  matches_query toLowerCase q1 blog = true →
  matches_query toLowerCase q2 blog = true.
Proof.
  intros Hlow H1 H2 H12%includes_lower_ci. unfold matches_query.
  rewrite (Hlow q1 H1), (Hlow q2 H2). intros Hm.
  exact (includes_trans _ _ _ Hm H12).
Qed.

Lemma filter_all (f : BlogData → bool) (l : list BlogData) :
  (∀ b, f b = true) → List.filter f l = l.
Proof.
  intros Hf. induction l as [|b l IH]; simpl; [done|].
  by rewrite Hf, IH.
Qed.

Lemma filter_narrow (f g : BlogData → bool) (l : list BlogData) :
  (∀ b, f b = true → g b = true) →
  List.filter f (List.filter g l) = List.filter f l.
Proof.
  intros Hfg. induction l as [|b l IH]; simpl; [done|].
  destruct (g b) eqn:G; simpl.
  - by rewrite IH.
  - destruct (f b) eqn:F; [|exact IH].
    apply Hfg in F. congruence.
Qed.

Lemma filter_length_le (f : BlogData → bool) (l : list BlogData) :
  (length (List.filter f l) ≤ length l)%nat.
Proof.
  induction l as [|b l IH]; simpl; [lia|].
  destruct (f b); simpl; lia.
Qed.

(** X1: with the search box empty every top-level blog is kept, in
    order, whatever the names are. *)
Theorem filter_empty_query (toLowerCase : string → string) (s : State) :
  agrees_on_ascii toLowerCase →
  filteredBlogs toLowerCase (setSearchQuery EmptyString s) = blogs s.
Proof.
  intros Hlow. unfold filteredBlogs. simpl. apply filter_all. intros b.
  unfold matches_query. rewrite (Hlow EmptyString eq_refl).
  apply includes_empty.
Qed.

Lemma filter_empty_query_witness :
  filteredBlogs final_sigma_lower (setSearchQuery EmptyString sigma_state)
  = [blog_sigma].
Proof.
  exact (filter_empty_query final_sigma_lower sigma_state
           final_sigma_lower_agrees).
Defined.

(** X2: narrowing an ASCII query narrows the result, whatever the names
    are: when the queries [q1] and [q2] are made of ASCII characters and
    [q2] occurs in [q1] up to the case of letters, every blog kept for
    [q1] is kept for [q2], and the list for [q1] is what the same filter
    keeps of the list for [q2]; in particular it is no longer. *)
Theorem filter_refines (toLowerCase : string → string) (s : State)
    (q1 q2 : string) :
  agrees_on_ascii toLowerCase →
  is_ascii q1 = true → is_ascii q2 = true →
  ci_contains q1 q2 →
  (∀ blog, blog ∈ filteredBlogs toLowerCase (setSearchQuery q1 s) →
           blog ∈ filteredBlogs toLowerCase (setSearchQuery q2 s))
  ∧ filteredBlogs toLowerCase (setSearchQuery q1 s)
    = List.filter (matches_query toLowerCase q1)
        (filteredBlogs toLowerCase (setSearchQuery q2 s))
  ∧ (length (filteredBlogs toLowerCase (setSearchQuery q1 s))
     ≤ length (filteredBlogs toLowerCase (setSearchQuery q2 s)))%nat.
Proof.
  intros Hlow H1 H2 H12. unfold filteredBlogs. simpl.
  assert (Heq : List.filter (matches_query toLowerCase q1) (blogs s)
                = List.filter (matches_query toLowerCase q1)
                    (List.filter (matches_query toLowerCase q2) (blogs s))).
  { symmetry. apply filter_narrow. intros b.
    by apply matches_query_narrow. }
  split_and!.
  - intros blog. rewrite !list_elem_of_In, !filter_In.
    intros [Hin Hm]. split; [done|].
    by apply (matches_query_narrow toLowerCase q1).
  - exact Heq.
  - rewrite Heq. apply filter_length_le.
Qed.

Lemma filter_refines_witness :
  filteredBlogs final_sigma_lower (setSearchQuery "Zine R" search_state)
  = List.filter (matches_query final_sigma_lower "Zine R")
      (filteredBlogs final_sigma_lower (setSearchQuery "zine" search_state)).
Proof.
  assert (H : ci_contains "Zine R" "zine").
  { exists EmptyString, "Zine"%string, " R"%string. split; [reflexivity|].
    simpl. split_and!; try done; try (by left).
    right. left.
    split; [split; apply Nat.leb_le; reflexivity | reflexivity]. }
  exact (proj1 (proj2 (filter_refines final_sigma_lower search_state
                         "Zine R" "zine" final_sigma_lower_agrees
                         eq_refl eq_refl H))).
Defined.

(** X3: the case of the ASCII letters typed in the search box does not
    matter, whatever the names are: two queries made of ASCII characters
    and equal up to the case of letters keep the same blogs. *)
Theorem filter_case_blind (toLowerCase : string → string) (s : State)
    (q1 q2 : string) :
  agrees_on_ascii toLowerCase →
  is_ascii q1 = true → is_ascii q2 = true →
  ci_equal q1 q2 →
  filteredBlogs toLowerCase (setSearchQuery q1 s)
  = filteredBlogs toLowerCase (setSearchQuery q2 s).
Proof.
  intros Hlow H1 H2 H%ascii_toLowerCase_ci_equal. unfold filteredBlogs.
  simpl. apply filter_ext. intros b. unfold matches_query.
  by rewrite (Hlow q1 H1), (Hlow q2 H2), H.
Qed.

Lemma filter_case_blind_witness :
  filteredBlogs final_sigma_lower (setSearchQuery "ZiNe" search_state)
  = filteredBlogs final_sigma_lower (setSearchQuery "zine" search_state).
Proof.
  apply (filter_case_blind final_sigma_lower search_state "ZiNe" "zine"
           final_sigma_lower_agrees eq_refl eq_refl).
  simpl.
  split_and!; try done; try (by left); right; left;
    (split; [split; apply Nat.leb_le; reflexivity | reflexivity]).
Defined.

(** ** Shape of the rendered rows *)

Lemma BlogRow_inv (fuel : nat) (s : State) (blog : BlogData) (level : nat)
    (rows : list Row) :
  BlogRow fuel s blog level = Some rows →
  rows = [row_of s blog level]
  ∨ ∃ fuel' kids rs,
      fuel = S fuel'
      ∧ blogID blog ∈ expandedBlogIds s
      ∧ subblogs s !! blogID blog = Some kids
      ∧ kids ≠ []
      ∧ Forall2 (λ kid y, BlogRow fuel' s kid (S level) = Some y) kids rs
      ∧ rows = row_of s blog level :: concat rs.
Proof.
  destruct fuel as [|fuel']; [done|]. simpl.
  destruct (is_expanded s (blogID blog)) eqn:E; simpl;
    [|intros [= <-]; by left].
  unfold hasSubblogs.
  destruct (subblogs s !! blogID blog) as [kids|] eqn:K;
    [|intros [= <-]; by left].
  destruct (bool_decide (0 < length kids)%nat) eqn:N;
    [|intros [= <-]; by left].
  destruct (mapM _ kids) as [rs|] eqn:M; simpl; [|done].
  intros [= <-]. right. exists fuel', kids, rs. split_and!; try done.
  - by apply is_expanded_true.
  - apply bool_decide_eq_true in N. intros ->. simpl in N. lia.
  - by apply mapM_Some_1.
Qed.

Lemma Forall2_concat_Forall {A B : Type} (R : A → list B → Prop)
    (P : B → Prop) (l : list A) (rs : list (list B)) :
  Forall2 R l rs →
  (∀ x y, x ∈ l → R x y → Forall P y) →
  Forall P (concat rs).
Proof.
  induction 1 as [|x y l rs Hxy _ IH]; intros HP; simpl.
  - constructor.
  - apply Forall_app. split.
    + apply (HP x y); [by left | done].
    + apply IH. intros x' y' Hin. apply HP. by right.
Qed.

Lemma BlogRow_levels (fuel : nat) (s : State) (blog : BlogData) (level : nat)
    (rows : list Row) :
  BlogRow fuel s blog level = Some rows →
  ∃ rest, rows = row_of s blog level :: rest
          ∧ Forall (λ r, (level < row_level r)%nat) rest.
Proof.
  revert blog level rows.
  induction fuel as [|fuel IH]; intros blog level rows H; [done|].
  apply BlogRow_inv in H
    as [->|(fuel' & kids & rs & [= <-] & _ & _ & _ & Hrs & ->)].
  - exists []. split; [done | constructor].
  - exists (concat rs). split; [done|].
    apply (Forall2_concat_Forall _ _ _ _ Hrs). intros kid y _ Hy.
    apply IH in Hy as (rest & -> & Hrest). constructor; simpl; [lia|].
    eapply Forall_impl; [exact Hrest|]. simpl. intros r ?. lia.
Qed.

(** X4: whatever is expanded or cached, a finished render of a node
    starts with the node's own row at the level asked for, every other row
    is strictly deeper, and every row shown is the row of either the node
    itself or a cached child of an expanded node. *)
Theorem BlogRow_rows (fuel : nat) (s : State) (root : BlogData)
    (level : nat) (rows : list Row) :
  BlogRow fuel s root level = Some rows →
  (∃ rest, rows = row_of s root level :: rest
           ∧ Forall (λ r, (level < row_level r)%nat) rest)
  ∧ Forall (λ r, ∃ blog, shown_in s root blog
                         ∧ r = row_of s blog (row_level r)) rows.
Proof.
  intros H. split; [by apply (BlogRow_levels fuel)|].
  revert root level rows H.
  induction fuel as [|fuel IH]; intros root level rows H; [done|].
  apply BlogRow_inv in H
    as [->|(fuel' & kids & rs & [= <-] & Hexp & Hkids & _ & Hrs & ->)].
  - constructor; [|constructor]. exists root. split; [by left | done].
  - constructor; [exists root; split; [by left | done]|].
    apply (Forall2_concat_Forall _ _ _ _ Hrs). intros kid y Hin Hy.
    apply IH in Hy. eapply Forall_impl; [exact Hy|]. simpl.
    intros r (blog & Hshown & Hr). exists blog. split; [|done].
    right. destruct Hshown as [->|Hdeep]; [|done].
    by exists (blogID root), kids.
Qed.

Lemma BlogRow_rows_witness :
  ∃ rest, [row_of search_state blog_zine 0;
           row_of search_state (with_parentId 1 blog_child) 1]
          = row_of search_state blog_zine 0 :: rest
          ∧ Forall (λ r, (0 < row_level r)%nat) rest.
Proof.
  assert (H : BlogRow 2 search_state blog_zine 0
              = Some [row_of search_state blog_zine 0;
                      row_of search_state (with_parentId 1 blog_child) 1])
    by (vm_compute; reflexivity).
  exact (proj1 (BlogRow_rows 2 search_state blog_zine 0 _ H)).
Defined.

Lemma filter_level0_deeper (rest : list Row) :
  Forall (λ r, (0 < row_level r)%nat) rest →
  List.filter (λ r, Nat.eqb (row_level r) 0) rest = [].
Proof.
  induction 1 as [|r rest Hr _ IH]; simpl; [done|].
  destruct (Nat.eqb_spec (row_level r) 0); [lia | exact IH].
Qed.

(** X5: in a finished render of the table, the rows at level 0 are
    exactly the rows of the filtered blogs, in their order, whatever is
    expanded below them. *)
Theorem table_body_top_level (toLowerCase : string → string) (fuel : nat)
    (s : State) (rows : list Row) :
  table_body toLowerCase fuel s = Some rows →
  List.filter (λ r, Nat.eqb (row_level r) 0) rows
  = map (λ blog, row_of s blog 0) (filteredBlogs toLowerCase s).
Proof.
  unfold table_body.
  destruct (mapM _ (filteredBlogs toLowerCase s)) as [rs|] eqn:M; simpl;
    [|done].
  intros [= <-]. apply mapM_Some_1 in M.
  induction M as [|blog y l rs Hy _ IH]; simpl; [done|].
  apply BlogRow_levels in Hy as (rest & -> & Hrest).
  rewrite List.filter_app. simpl.
  by rewrite (filter_level0_deeper rest Hrest), IH.
Qed.

Lemma table_body_top_level_witness :
  List.filter (λ r, Nat.eqb (row_level r) 0)
    [row_of search_state blog_zine 0;
     row_of search_state (with_parentId 1 blog_child) 1]
  = map (λ blog, row_of search_state blog 0)
        (filteredBlogs ascii_toLowerCase search_state).
Proof.
  apply (table_body_top_level ascii_toLowerCase 2). vm_compute. reflexivity.
Defined.

(** X6: the "No blogs found" notice and the table rows exclude each
    other: the notice is shown exactly when the table body renders to no
    row at all. *)
Theorem no_blogs_found_iff (toLowerCase : string → string) (fuel : nat)
    (s : State) :
  no_blogs_found toLowerCase s = true
  ↔ table_body toLowerCase (S fuel) s = Some [].
Proof.
  unfold no_blogs_found, table_body. rewrite bool_decide_eq_true. split.
  - intros H. apply length_zero_iff_nil in H. by rewrite H.
  - destruct (filteredBlogs toLowerCase s) as [|blog l]; [done|].
    destruct (mapM _ (blog :: l)) as [rs|] eqn:M; simpl; [|done].
    intros [= Hrs]. apply mapM_Some_1 in M.
    apply Forall2_cons_inv_l in M as (y & rs' & Hy & _ & ->).
    apply BlogRow_levels in Hy as (rest & -> & _). done.
Qed.

(** ** Rendering collapsed and expanded nodes *)

Lemma BlogRow_collapsed (fuel : nat) (s : State) (blog : BlogData)
    (level : nat) :
  blogID blog ∉ expandedBlogIds s →
  BlogRow (S fuel) s blog level = Some [row_of s blog level].
Proof.
  intros H%is_expanded_false. simpl. by rewrite H.
Qed.

Lemma mapM_BlogRow_collapsed (fuel : nat) (s : State) (level : nat)
    (l : list BlogData) :
  (∀ blog, blog ∈ l → blogID blog ∉ expandedBlogIds s) →
  mapM (λ blog, BlogRow (S fuel) s blog level) l
  = Some (map (λ blog, [row_of s blog level]) l).
Proof.
  intros H. apply mapM_Some_2.
  induction l as [|b l IH]; simpl; constructor.
  - apply BlogRow_collapsed. apply H. by left.
  - apply IH. intros blog Hin. apply H. by right.
Qed.

Lemma concat_singletons {A B : Type} (f : A → B) (l : list A) :
  concat (map (λ x, [f x]) l) = map f l.
Proof. induction l as [|x l IH]; simpl; [done | by rewrite IH]. Qed.

(** X7: when none of the filtered blogs is expanded, the table shows
    one row per filtered blog, in order, and nothing else, whatever the
    cache holds. *)
Theorem table_body_flat (toLowerCase : string → string) (fuel : nat)
    (s : State) :
  (∀ blog, blog ∈ filteredBlogs toLowerCase s →
           blogID blog ∉ expandedBlogIds s) →
  table_body toLowerCase (S fuel) s
  = Some (map (λ blog, row_of s blog 0%nat) (filteredBlogs toLowerCase s)).
Proof.
  intros H. unfold table_body.
  rewrite (mapM_BlogRow_collapsed fuel s 0 _ H). simpl.
  by rewrite concat_singletons.
Qed.

Lemma table_body_flat_witness :
  table_body ascii_toLowerCase 1 (setExpandedBlogIds (λ _, ∅) search_state)
  = Some [row_of (setExpandedBlogIds (λ _, ∅) search_state) blog_zine 0].
Proof.
  apply (table_body_flat ascii_toLowerCase 0
           (setExpandedBlogIds (λ _, ∅) search_state)).
  intros blog _. simpl. apply not_elem_of_empty.
Defined.

(** X8: once a confirmed delete has run to its end, the table is flat
    again: every filtered blog renders collapsed, as a single row with
    no child rows. *)
Theorem delete_reset_renders_flat (toLowerCase : string → string)
    (fuel : nat) (r : Response) (w w' : World) :
  step (Settle AwaitRefetch r) w = Some w' →
  table_body toLowerCase (S fuel) (state w')
  = Some (map (λ blog, row_of (state w') blog 0%nat)
              (filteredBlogs toLowerCase (state w')))
  ∧ (∀ blog level,
       BlogRow (S fuel) (state w') blog level
       = Some [row_of (state w') blog level]).
Proof.
  intros [_ ->]%step_settle_inv.
  set (w0 := take_inflight AwaitRefetch w).
  change (resume AwaitRefetch r w0) with (handleDelete_refetched r w0).
  destruct (handleDelete_refetched_clears r w0) as (He & _).
  split.
  - unfold table_body.
    rewrite (mapM_BlogRow_collapsed fuel _ 0).
    + simpl. by rewrite concat_singletons.
    + intros blog _. rewrite He. apply not_elem_of_empty.
  - intros blog level. apply BlogRow_collapsed. rewrite He.
    apply not_elem_of_empty.
Qed.

Lemma delete_reset_renders_flat_witness :
  ∃ w', step (Settle AwaitRefetch (Resolved [blog_zine]))
             (suspend AwaitRefetch cached_world) = Some w'
        ∧ table_body ascii_toLowerCase 1 (state w')
          = Some [row_of (state w') blog_zine 0].
Proof.
  eexists. split; [vm_compute; reflexivity|].
  exact (proj1 (delete_reset_renders_flat ascii_toLowerCase 0
                  (Resolved [blog_zine])
                  (suspend AwaitRefetch cached_world) _ eq_refl)).
Defined.

(** X9: the renderer follows the cache without a depth limit: when the
    cached children of an expanded node include a node with the same id,
    rendering that node never finishes, whatever the nesting budget. *)
Theorem BlogRow_self_loop (s : State) (blog : BlogData)
    (kids : list BlogData) (fuel level : nat) :
  blogID blog ∈ expandedBlogIds s →
  subblogs s !! blogID blog = Some kids →
  (∃ kid, kid ∈ kids ∧ blogID kid = blogID blog) →
  BlogRow fuel s blog level = None.
Proof.
  intros Hexp%is_expanded_true Hkids (kid & Hin & Hid).
  assert (Hgen : ∀ b l, blogID b = blogID blog → BlogRow fuel s b l = None).
  { induction fuel as [|fuel IH]; intros b l Hb; [done|].
    simpl. rewrite Hb, Hexp. unfold hasSubblogs. rewrite Hkids.
    rewrite bool_decide_eq_true_2.
    - simpl. rewrite (mapM_None_2 _ kids); [done|].
      apply Exists_exists. exists kid. split; [done|]. by apply IH.
    - destruct kids; [by apply not_elem_of_nil in Hin | simpl; lia]. }
  by apply Hgen.
Qed.

Lemma cyclic_world_run :
  run [Toggle blog_zine; Settle (AwaitSubblogs 1) (Resolved [blog_zine])]
      initial_world = Some cyclic_world.
Proof. vm_compute. reflexivity. Qed.

Lemma BlogRow_self_loop_witness :
  reachable cyclic_world
  ∧ BlogRow 1000 (state cyclic_world) blog_zine 0 = None.
Proof.
  split; [exact (run_reachable _ _ _ reachable_init cyclic_world_run)|].
  apply (BlogRow_self_loop (state cyclic_world) blog_zine
           [with_parentId 1 blog_zine]).
  - apply is_expanded_true. vm_compute. reflexivity.
  - vm_compute. reflexivity.
  - exists (with_parentId 1 blog_zine). split; [|reflexivity].
    apply list_elem_of_In. simpl. by left.
Defined.

(** X10: an expanded node whose cached children are all collapsed renders
    as its own row followed by one row per cached child, in cache order,
    one level deeper. *)
Theorem BlogRow_children (fuel : nat) (s : State) (blog : BlogData)
    (level : nat) (kids : list BlogData) :
  blogID blog ∈ expandedBlogIds s →
  subblogs s !! blogID blog = Some kids →
  kids ≠ [] →
  (∀ kid, kid ∈ kids → blogID kid ∉ expandedBlogIds s) →
  BlogRow (S (S fuel)) s blog level
  = Some (row_of s blog level :: map (λ kid, row_of s kid (S level)) kids).
Proof.
  intros Hexp%is_expanded_true Hkids Hne Hleaf.
  change (BlogRow (S (S fuel)) s blog level)
    with (if (is_expanded s (blogID blog) && hasSubblogs s (blogID blog))%bool
          then
            match subblogs s !! blogID blog with
            | Some kids =>
                rows ← mapM (λ subblog, BlogRow (S fuel) s subblog (S level))
                            kids;
                Some (row_of s blog level :: concat rows)
            | None => Some [row_of s blog level]
            end
          else Some [row_of s blog level]).
  rewrite Hexp. unfold hasSubblogs. rewrite Hkids.
  rewrite bool_decide_eq_true_2
    by (destruct kids; [done | simpl; lia]).
  rewrite (mapM_BlogRow_collapsed fuel s (S level) kids Hleaf).
  simpl. by rewrite concat_singletons.
Qed.

Lemma BlogRow_children_witness :
  BlogRow 2 search_state blog_zine 0
  = Some [row_of search_state blog_zine 0;
          row_of search_state (with_parentId 1 blog_child) 1].
Proof.
  apply (BlogRow_children 0 search_state blog_zine 0
           [with_parentId 1 blog_child]).
  - apply is_expanded_true. vm_compute. reflexivity.
  - vm_compute. reflexivity.
  - discriminate.
  - intros kid Hin. apply list_elem_of_singleton in Hin as ->.
    apply is_expanded_false. vm_compute. reflexivity.
Defined.

(** ** Toggling *)

Lemma fetchSubblogs_frame (id : Z) (w : World) :
  blogs (state (fetchSubblogs id w)) = blogs (state w)
  ∧ searchQuery (state (fetchSubblogs id w)) = searchQuery (state w)
  ∧ console (fetchSubblogs id w) = console w
  ∧ alerts (fetchSubblogs id w) = alerts w.
Proof. unfold fetchSubblogs. by destruct (is_loading (state w) id). Qed.

Lemma toggleExpand_frame (blog : BlogData) (w : World) :
  blogs (state (toggleExpand blog w)) = blogs (state w)
  ∧ searchQuery (state (toggleExpand blog w)) = searchQuery (state w)
  ∧ console (toggleExpand blog w) = console w
  ∧ alerts (toggleExpand blog w) = alerts w.
Proof.
  unfold toggleExpand. destruct (is_expanded _ _); simpl; [done|].
  apply fetchSubblogs_frame.
Qed.

Lemma toggle_twice_expanded (blog : BlogData) (w : World) :
  expandedBlogIds (state (toggleExpand blog (toggleExpand blog w)))
  = expandedBlogIds (state w).
Proof.
  destruct (decide (blogID blog ∈ expandedBlogIds (state w))) as [Hin|Hout].
  - destruct (toggleExpand_collapse_facts blog w Hin) as (_ & _ & _ & _ & H).
    rewrite (toggleExpand_expand blog _ H). simpl.
    rewrite fetchSubblogs_expanded, (toggleExpand_collapse blog w Hin).
    simpl. symmetry. by apply union_difference_singleton_L.
  - assert (H : blogID blog ∈ expandedBlogIds (state (toggleExpand blog w))).
    { rewrite toggleExpand_expand by done. simpl.
      apply elem_of_union_l. by apply elem_of_singleton. }
    rewrite (toggleExpand_collapse blog _ H). simpl.
    rewrite (toggleExpand_expand blog w Hout). simpl.
    rewrite fetchSubblogs_expanded. apply set_eq. intros x.
    rewrite elem_of_difference, elem_of_union, !elem_of_singleton.
    split; [intros [[->|Hx] Hne]; done|].
    intros Hx. split; [by right|]. intros ->. done.
Qed.

(** X11: toggling the same node twice restores the expansion set, and
    leaves the cache, the top-level list and the query as they were:
    only the requests sent and the loading flag can differ. *)
Theorem toggle_twice (blog : BlogData) (w : World) :
  expandedBlogIds (state (toggleExpand blog (toggleExpand blog w)))
  = expandedBlogIds (state w)
  ∧ subblogs (state (toggleExpand blog (toggleExpand blog w)))
    = subblogs (state w)
  ∧ blogs (state (toggleExpand blog (toggleExpand blog w)))
    = blogs (state w)
  ∧ searchQuery (state (toggleExpand blog (toggleExpand blog w)))
    = searchQuery (state w).
Proof.
  split_and!.
  - apply toggle_twice_expanded.
  - by rewrite !toggleExpand_subblogs.
  - destruct (toggleExpand_frame blog (toggleExpand blog w)) as (-> & _).
    by destruct (toggleExpand_frame blog w) as (-> & _).
  - destruct (toggleExpand_frame blog (toggleExpand blog w)) as (_ & -> & _).
    by destruct (toggleExpand_frame blog w) as (_ & -> & _).
Qed.

(** X12: toggling a node leaves every other node alone: for any other
    id the expansion, the loading flag, the child fetches in flight and
    the child fetches sent are unchanged. *)
Theorem toggle_other_node (blog : BlogData) (id : Z) (w : World) :
  id ≠ blogID blog →
  (id ∈ expandedBlogIds (state (toggleExpand blog w))
   ↔ id ∈ expandedBlogIds (state w))
  ∧ is_loading (state (toggleExpand blog w)) id = is_loading (state w) id
  ∧ outstanding id (toggleExpand blog w) = outstanding id w
  ∧ fetches id (toggleExpand blog w) = fetches id w.
Proof.
  intros Hne. split_and!.
  - unfold toggleExpand. destruct (is_expanded _ _); simpl.
    + rewrite elem_of_difference, elem_of_singleton. tauto.
    + rewrite fetchSubblogs_expanded, elem_of_union, elem_of_singleton.
      tauto.
  - unfold toggleExpand, fetchSubblogs.
    destruct (is_expanded _ _), (is_loading (state w) (blogID blog));
      simpl; try done.
    unfold is_loading. simpl. by rewrite lookup_insert_ne.
  - unfold toggleExpand, fetchSubblogs, outstanding.
    destruct (is_expanded _ _), (is_loading (state w) (blogID blog));
      simpl; try done.
    rewrite count_snoc. rewrite decide_False by congruence. lia.
  - rewrite (step_fetches id (Toggle blog) w _ eq_refl). simpl.
    rewrite bool_decide_eq_false_2 by done. simpl. lia.
Qed.

Lemma toggle_other_node_witness :
  (1 ∈ expandedBlogIds (state (toggleExpand blog_plain cached_world))
   ↔ 1 ∈ expandedBlogIds (state cached_world))
  ∧ fetches 1 (toggleExpand blog_plain cached_world) = fetches 1 cached_world.
Proof.
  assert (H : 1 ≠ blogID blog_plain) by (simpl; lia).
  destruct (toggle_other_node blog_plain 1 cached_world H)
    as (H1 & _ & _ & H4).
  exact (conj H1 H4).
Defined.

(** ** Responses *)

(** X13: a child fetch that succeeds writes its children into the cache
    under its key whether or not the node is still expanded, replacing
    what was there: same length, order, ids and names as the response;
    every other key, the expansion set and the top-level list are
    untouched and nothing is sent or logged. *)
Theorem child_fetch_success (id : Z) (data : list BlogData) (w w' : World) :
  step (Settle (AwaitSubblogs id) (Resolved data)) w = Some w' →
  (∃ kids, subblogs (state w') !! id = Some kids
           ∧ length kids = length data
           ∧ map blogID kids = map blogID data
           ∧ map blogName kids = map blogName data
           ∧ map createdAt kids = map createdAt data
           ∧ map featured kids = map featured data)
  ∧ (∀ j, j ≠ id → subblogs (state w') !! j = subblogs (state w) !! j)
  ∧ expandedBlogIds (state w') = expandedBlogIds (state w)
  ∧ blogs (state w') = blogs (state w)
  ∧ requests w' = requests w
  ∧ console w' = console w.
Proof.
  intros [_ ->]%step_settle_inv. simpl. split_and!; try done.
  - exists (map (with_parentId id) data). split_and!.
    + apply lookup_insert_eq.
    + apply length_map.
    + rewrite map_map. by apply map_ext.
    + rewrite map_map. by apply map_ext.
    + rewrite map_map. by apply map_ext.
    + rewrite map_map. by apply map_ext.
  - intros j Hj. by apply lookup_insert_ne.
Qed.

Lemma child_fetch_success_witness :
  ∃ w', step (Settle (AwaitSubblogs 2) (Resolved [blog_child; blog_zine]))
             loading_world = Some w'
        ∧ ∃ kids, subblogs (state w') !! 2 = Some kids
                  ∧ map blogID kids = [3; 1].
Proof.
  eexists. split; [vm_compute; reflexivity|].
  destruct (proj1 (child_fetch_success 2 [blog_child; blog_zine]
                     loading_world _ eq_refl))
    as (kids & Hk & _ & Hids & _).
  exists kids. split; [exact Hk | exact Hids].
Defined.

(** X14: the top-level fetch of the mount effect either replaces the
    top-level list by the response, or, when it fails, keeps the list and
    logs the error; in both cases the expansion set, the cache, the
    loading flags and the query are untouched, nothing is sent and no
    alert is raised. *)
Theorem top_level_fetch_outcome (r : Response) (w w' : World) :
  step (Settle AwaitBlogs r) w = Some w' →
  match r with
  | Resolved data => blogs (state w') = data ∧ console w' = console w
  | Rejected _ =>
      blogs (state w') = blogs (state w)
      ∧ console w' = console w ++ ["Error fetching blogs:"%string]
  end
  ∧ expandedBlogIds (state w') = expandedBlogIds (state w)
  ∧ subblogs (state w') = subblogs (state w)
  ∧ loading (state w') = loading (state w)
  ∧ searchQuery (state w') = searchQuery (state w)
  ∧ requests w' = requests w
  ∧ alerts w' = alerts w.
Proof. intros [_ ->]%step_settle_inv. by destruct r. Qed.

Lemma top_level_fetch_outcome_witness :
  ∃ w', step (Settle AwaitBlogs (Resolved [blog_zine; blog_plain]))
             initial_world = Some w'
        ∧ blogs (state w') = [blog_zine; blog_plain].
Proof.
  eexists. split; [vm_compute; reflexivity|].
  exact (proj1 (proj1 (top_level_fetch_outcome
                         (Resolved [blog_zine; blog_plain])
                         initial_world _ eq_refl))).
Defined.

(** X15: when a confirmed delete succeeds but the refetch that follows
    fails, the expansion set and the cache are still cleared while the
    top-level list stays as it was before the delete; the failure is
    logged and no alert is raised. *)
Theorem delete_refetch_failure (id : Z) (data : list BlogData) (err : string)
    (w : World) :
  ∃ w', run [Delete id true; Settle (AwaitDelete id) (Resolved data);
             Settle AwaitRefetch (Rejected err)] w = Some w'
        ∧ blogs (state w') = blogs (state w)
        ∧ expandedBlogIds (state w') = ∅
        ∧ subblogs (state w') = ∅
        ∧ console w' = console w ++ ["Error fetching blogs:"%string]
        ∧ alerts w' = alerts w.
Proof.
  rewrite (run_cons_some _ _ _ (handleDelete id true w)) by reflexivity.
  rewrite run_settle by apply elem_of_snoc.
  rewrite run_settle by apply elem_of_snoc.
  eexists. split; [reflexivity|]. by split_and!.
Qed.

(** ** A child fetch in flight across a delete *)

Lemma elem_of_remove_first_ne (p q : Pending) (l : list Pending) :
  p ≠ q → q ∈ l → q ∈ remove_first p l.
Proof.
  intros Hne. rewrite !count_pos, count_remove_first.
  by rewrite decide_False.
Qed.

(** X16: nothing cancels a child fetch: when a delete's reset happens
    while a child fetch is in flight, the reset leaves the loading flag
    raised and the fetch in flight, and the later response is written
    into the cleared cache under its key although no node is expanded. *)
Theorem child_fetch_survives_reset (id : Z) (data : list BlogData)
    (r : Response) (w : World) :
  AwaitRefetch ∈ inflight w →
  AwaitSubblogs id ∈ inflight w →
  (∃ w1, step (Settle AwaitRefetch r) w = Some w1
         ∧ loading (state w1) = loading (state w)
         ∧ (AwaitSubblogs id ∈ inflight w1))
  ∧ (∃ w2, run [Settle AwaitRefetch r;
                Settle (AwaitSubblogs id) (Resolved data)] w = Some w2
           ∧ expandedBlogIds (state w2) = ∅
           ∧ subblogs (state w2) = <[id := map (with_parentId id) data]> ∅
           ∧ is_loading (state w2) id = false).
Proof.
  intros Hr Hs.
  assert (Hs1 : AwaitSubblogs id
                ∈ inflight (resume AwaitRefetch r
                              (take_inflight AwaitRefetch w))).
  { assert (inflight (resume AwaitRefetch r (take_inflight AwaitRefetch w))
            = remove_first AwaitRefetch (inflight w)) as ->
      by (by destruct r).
    by apply elem_of_remove_first_ne. }
  split.
  - rewrite step_settle by done. eexists. split; [reflexivity|].
    split; [by destruct r | exact Hs1].
  - rewrite run_settle by done. rewrite run_settle by exact Hs1.
    eexists. split; [reflexivity|]. simpl. split_and!; try done.
    unfold is_loading. simpl. by rewrite lookup_insert_eq.
Qed.

Lemma child_fetch_survives_reset_witness :
  ∃ w2, run [Settle AwaitRefetch (Resolved [blog_zine]);
             Settle (AwaitSubblogs 2) (Resolved [blog_child])] racing_world
        = Some w2
        ∧ expandedBlogIds (state w2) = ∅
        ∧ subblogs (state w2) = <[2 := map (with_parentId 2) [blog_child]]> ∅.
Proof.
  assert (Hr : AwaitRefetch ∈ inflight racing_world)
    by (apply list_elem_of_In; vm_compute; auto).
  assert (Hs : AwaitSubblogs 2 ∈ inflight racing_world)
    by (apply list_elem_of_In; vm_compute; auto).
  destruct (proj2 (child_fetch_survives_reset 2 [blog_child]
                     (Resolved [blog_zine]) racing_world Hr Hs))
    as (w2 & Hrun & He & Hc & _).
  exists w2. split_and!; [exact Hrun | exact He | exact Hc].
Defined.

(** ** Nothing is shown before it was fetched *)

Lemma fetches_pos (id : Z) (w : World) :
  ReqChildren id ∈ requests w ↔ (0 < fetches id w)%nat.
Proof.
  unfold fetches. induction (requests w) as [|a l IH].
  - rewrite filter_nil. simpl. split; [by intros ?%not_elem_of_nil | lia].
  - rewrite filter_cons, elem_of_cons.
    destruct (decide (a = ReqChildren id)) as [->|Ha]; simpl.
    + split; [lia | by left].
    + rewrite <- IH. split; [intros [Heq|]; [congruence | done] | by right].
Qed.

Lemma step_fetches_mono (id : Z) (e : Event) (w w' : World) :
  step e w = Some w' → (fetches id w ≤ fetches id w')%nat.
Proof. intros H. rewrite (step_fetches id e w w' H). lia. Qed.

Lemma fetched_inv_initial : fetched_inv initial_world.
Proof.
  intros id [H|[H|[x H]]].
  - by apply not_elem_of_empty in H.
  - done.
  - simpl in H. by rewrite lookup_empty in H.
Qed.

Lemma fetched_inv_toggle (blog : BlogData) (w : World) :
  fetched_inv w → fetched_inv (toggleExpand blog w).
Proof.
  intros Hinv id Hid.
  pose proof (step_fetches id (Toggle blog) w _ eq_refl) as Hf.
  assert (Hold : (id ∈ expandedBlogIds (state w)
                  ∨ is_loading (state w) id = true
                  ∨ is_Some (subblogs (state w) !! id))
                 ∨ (id = blogID blog
                    ∧ is_expanded (state w) id = false
                    ∧ is_loading (state w) id = false)).
  { rewrite toggleExpand_subblogs in Hid.
    destruct Hid as [H|[H|H]]; [| |by left; right; right].
    - unfold toggleExpand in H.
      destruct (is_expanded (state w) (blogID blog)) eqn:E; simpl in H.
      + apply elem_of_difference in H as [H _]. by left; left.
      + rewrite fetchSubblogs_expanded in H.
        apply elem_of_union in H as [->%elem_of_singleton|H];
          [|by left; left].
        destruct (is_loading (state w) (blogID blog)) eqn:L;
          [by left; right; left | by right].
    - unfold toggleExpand, fetchSubblogs in H.
      destruct (is_expanded (state w) (blogID blog)) eqn:E; simpl in H;
        [by left; right; left|].
      destruct (is_loading (state w) (blogID blog)) eqn:L; simpl in H;
        [by left; right; left|].
      unfold is_loading in H. simpl in H. rewrite lookup_insert in H.
      destruct (decide (blogID blog = id)) as [<-|Hne];
        [by right | by left; right; left]. }
  destruct Hold as [Hold|(-> & E & L)].
  - apply Hinv in Hold. lia.
  - rewrite Hf. simpl. rewrite bool_decide_eq_true_2 by done.
    rewrite E, L. simpl. lia.
Qed.

Lemma fetched_inv_step (e : Event) (w w' : World) :
  loading_inv w → fetched_inv w → step e w = Some w' → fetched_inv w'.
Proof.
  intros Hload Hinv Hstep.
  destruct e as [blog|i confirmed|q|p r].
  - injection Hstep as <-. by apply fetched_inv_toggle.
  - intros id Hid. pose proof (step_fetches_mono id _ _ _ Hstep) as Hm.
    injection Hstep as <-.
    assert (H : (0 < fetches id w)%nat)
      by (apply Hinv; by destruct confirmed).
    lia.
  - intros id Hid. pose proof (step_fetches_mono id _ _ _ Hstep) as Hm.
    injection Hstep as <-. apply Hinv in Hid. lia.
  - intros id Hid. pose proof (step_fetches_mono id _ _ _ Hstep) as Hm.
    apply step_settle_inv in Hstep as [Hp ->].
    assert (H : (0 < fetches id w)%nat); [|lia].
    destruct p as [|i| |].
    + apply Hinv. by destruct r.
    + assert (Hi : is_loading (state w) i = true).
      { apply outstanding_in in Hp. rewrite (Hload i) in Hp.
        destruct (is_loading (state w) i); [done | lia]. }
      destruct (decide (i = id)) as [<-|Hne]; [apply Hinv; by right; left|].
      apply Hinv. destruct Hid as [H|[H|H]].
      * left. by destruct r.
      * right. left. unfold is_loading in *.
        destruct r; simpl in H; by rewrite lookup_insert_ne in H.
      * right. right.
        destruct r; simpl in H; [by rewrite lookup_insert_ne in H | done].
    + apply Hinv. by destruct r.
    + apply Hinv. right. left. destruct Hid as [H|[H|[x H]]].
      * destruct r; simpl in H; by apply not_elem_of_empty in H.
      * by destruct r.
      * destruct r; simpl in H; by rewrite lookup_empty in H.
Qed.

(** X17: in every reachable world, a node that is expanded, shows the
    spinner, or has an entry in the children cache has had at least one
    child fetch keyed by its id sent for it. *)
Theorem fetched_before_shown (w : World) (id : Z) :
  reachable w →
  id ∈ expandedBlogIds (state w)
  ∨ is_loading (state w) id = true
  ∨ is_Some (subblogs (state w) !! id) →
  ReqChildren id ∈ requests w.
Proof.
  intros Hw. rewrite fetches_pos. revert id. fold (fetched_inv w).
  assert (H : loading_inv w ∧ fetched_inv w); [|by destruct H].
  induction Hw as [|e w w' _ [IHl IHf] Hstep].
  - split; [exact loading_inv_initial | exact fetched_inv_initial].
  - split.
    + exact (loading_inv_step e w w' IHl Hstep).
    + exact (fetched_inv_step e w w' IHl IHf Hstep).
Qed.

Lemma fetched_before_shown_witness : ReqChildren 1 ∈ requests cached_world.
Proof.
  apply (fetched_before_shown cached_world 1 cached_world_reachable).
  left. apply is_expanded_true. vm_compute. reflexivity.
Defined.

(** ** The expand button *)

(** X18: in every reachable world the expand button of a row is disabled
    and shows the spinner exactly while a child fetch for the row's node
    is in flight; otherwise it shows the down chevron when the node is
    expanded and the right chevron when it is not. *)
Theorem spinner_iff_in_flight (w : World) (blog : BlogData) (level : nat) :
  reachable w →
  (row_disabled (row_of (state w) blog level) = true
   ↔ AwaitSubblogs (blogID blog) ∈ inflight w)
  ∧ (row_icon (row_of (state w) blog level) = Spinner
     ↔ AwaitSubblogs (blogID blog) ∈ inflight w)
  ∧ (row_icon (row_of (state w) blog level) = ChevronDown
     ↔ (AwaitSubblogs (blogID blog) ∉ inflight w)
       ∧ blogID blog ∈ expandedBlogIds (state w))
  ∧ (row_icon (row_of (state w) blog level) = ChevronRight
     ↔ (AwaitSubblogs (blogID blog) ∉ inflight w)
       ∧ blogID blog ∉ expandedBlogIds (state w)).
Proof.
  intros Hw. pose proof (reachable_loading_inv w Hw (blogID blog)) as Hinv.
  assert (Hfl : AwaitSubblogs (blogID blog) ∈ inflight w
                ↔ is_loading (state w) (blogID blog) = true).
  { rewrite outstanding_in, Hinv.
    destruct (is_loading (state w) (blogID blog)); split; (done || lia). }
  rewrite Hfl, <- is_expanded_true. unfold row_of. simpl.
  destruct (is_loading (state w) (blogID blog)),
           (is_expanded (state w) (blogID blog));
    split_and!; split; try done; try (by intros [? ?]); by intros _.
Qed.

Lemma spinner_iff_in_flight_witness :
  row_icon (row_of (state loading_world) blog_plain 0) = Spinner
  ↔ AwaitSubblogs 2 ∈ inflight loading_world.
Proof.
  exact (proj1 (proj2 (spinner_iff_in_flight loading_world blog_plain 0
                         loading_world_reachable))).
Defined.

(** ** Navigation from a cached child *)

Lemma reachable_parent_inv (w : World) : reachable w → parent_inv w.
Proof.
  induction 1 as [|e w w' _ IH Hstep].
  - exact parent_inv_initial.
  - exact (parent_inv_step e w w' IH Hstep).
Qed.

(** X19: in every reachable world, the edit link of a child cached under
    key [p] carries [parentId = p] next to the child's own id, and its
    view link goes to the child's page with [parentId = p] in the query,
    except that a parent id of 0 is dropped from the view link. *)
Theorem child_links_carry_parent (w : World) (p : Z) (kids : list BlogData)
    (child : BlogData) :
  reachable w →
  subblogs (state w) !! p = Some kids →
  child ∈ kids →
  handleEdit child
  = UrlObject (Literal "/admin/updateblog")
      [("edit"%string, QBool true);
       ("blogId"%string, QNum (blogID child));
       ("parentId"%string, QNum p)]
  ∧ handleView child
    = UrlObject (BlogsPath (blogID child))
        (if decide (p = 0) then [] else [("parentId"%string, QNum p)]).
Proof.
  intros Hw Hkids Hin.
  pose proof (reachable_parent_inv w Hw p kids child Hkids Hin) as Hp.
  unfold handleEdit, handleView. rewrite Hp. simpl. split; [done|].
  destruct (decide (p = 0)) as [->|Hne]; [done|].
  by rewrite (proj2 (Z.eqb_neq p 0) Hne).
Qed.

Lemma child_links_carry_parent_witness :
  handleView (with_parentId 1 blog_child)
  = UrlObject (BlogsPath 3) [("parentId"%string, QNum 1)].
Proof.
  refine (proj2 (child_links_carry_parent cached_world 1
                   [with_parentId 1 blog_child] (with_parentId 1 blog_child)
                   cached_world_reachable _ _)).
  - vm_compute. reflexivity.
  - apply list_elem_of_In. simpl. by left.
Defined.

(** ** The request interceptor *)

Lemma substring_all (t : string) : String.substring 0 (String.length t) t = t.
Proof. induction t as [|c t IH]; simpl; [done | by rewrite IH]. Qed.

Lemma length_append (a b : string) :
  String.length (a +:+ b) = (String.length a + String.length b)%nat.
Proof. induction a as [|c a IH]; simpl; [done | by rewrite IH]. Qed.

(** X20: the interceptor touches no header but [Authorization]; without
    a token, or with the empty string for one, it returns the headers as
    they are; with a non-empty token it sets [Authorization] to exactly
    "Bearer " followed by the token and nothing after it, replacing any
    value already there; so on headers without [Authorization] the header
    is present afterwards exactly when a non-empty token is stored, and
    the default headers of the client go out unchanged. *)
Theorem interceptor_headers (token : option string)
    (headers : gmap string string) :
  (∀ k, k ≠ "Authorization"%string →
        request_interceptor token headers !! k = headers !! k)
  ∧ request_interceptor None headers = headers
  ∧ request_interceptor (Some EmptyString) headers = headers
  ∧ (∀ t, token = Some t → t ≠ EmptyString →
       request_interceptor token headers !! "Authorization"%string
       = Some ("Bearer " +:+ t)%string
       ∧ ∀ v, request_interceptor token headers !! "Authorization"%string
              = Some v →
              String.length v = (7 + String.length t)%nat
              ∧ String.substring 0 7 v = "Bearer "%string
              ∧ String.substring 7 (String.length v - 7) v = t)
  ∧ (headers !! "Authorization"%string = None →
     (is_Some (request_interceptor token headers !! "Authorization"%string)
      ↔ ∃ t, token = Some t ∧ t ≠ EmptyString))
  ∧ request_interceptor token base_headers !! "Content-Type"%string
    = Some "application/json"%string
  ∧ request_interceptor token base_headers !! "stage"%string
    = Some "test"%string.
Proof.
  assert (Hframe : ∀ hs k, k ≠ "Authorization"%string →
            request_interceptor token hs !! k = hs !! k).
  { intros hs k Hk. unfold request_interceptor.
    destruct token as [t|]; [|done].
    destruct (decide (t = EmptyString)); [done|].
    by apply lookup_insert_ne. }
  assert (Hset : ∀ t, token = Some t → t ≠ EmptyString →
            request_interceptor token headers !! "Authorization"%string
            = Some ("Bearer " +:+ t)%string).
  { intros t -> Hne. unfold request_interceptor.
    rewrite decide_False by done. apply lookup_insert_eq. }
  split_and!.
  - apply Hframe.
  - reflexivity.
  - reflexivity.
  - intros t Ht Hne. split; [by apply Hset|].
    intros v. rewrite (Hset t Ht Hne). intros [= <-]. split_and!.
    + by rewrite length_append.
    + rewrite !append_cons, append_nil. simpl.
      by destruct t.
    + rewrite length_append, !append_cons, append_nil. simpl.
      rewrite Nat.sub_0_r. apply substring_all.
  - intros Hnone. unfold request_interceptor. destruct token as [t|].
    + destruct (decide (t = EmptyString)) as [->|Hne].
      * rewrite Hnone. split; [by intros [? ?] | by intros (t & [= <-] & ?)].
      * rewrite lookup_insert_eq. split; [|by eauto].
        intros _. by exists t.
    + rewrite Hnone. split; [by intros [? ?] | by intros (t & ? & ?)].
  - by rewrite Hframe.
  - by rewrite Hframe.
Qed.

Lemma interceptor_headers_witness :
  request_interceptor None base_headers !! "Authorization"%string = None
  ∧ request_interceptor (Some "abc"%string) base_headers
      !! "Authorization"%string = Some "Bearer abc"%string.
Proof.
  split; [vm_compute; reflexivity|].
  destruct (interceptor_headers (Some "abc"%string) base_headers)
    as (_ & _ & _ & H & _).
  exact (proj1 (H "abc"%string eq_refl ltac:(discriminate))).
Defined.

(** ** Cached children while refetching *)

Lemma BlogRow_expanded_unfold (fuel : nat) (s : State) (blog : BlogData)
    (level : nat) (kids : list BlogData) :
  blogID blog ∈ expandedBlogIds s →
  subblogs s !! blogID blog = Some kids →
  kids ≠ [] →
  BlogRow (S fuel) s blog level
  = (rows ← mapM (λ subblog, BlogRow fuel s subblog (S level)) kids;
     Some (row_of s blog level :: concat rows)).
Proof.
  intros Hexp%is_expanded_true Hkids Hne. simpl.
  rewrite Hexp. unfold hasSubblogs. rewrite Hkids.
  rewrite bool_decide_eq_true_2; [done|].
  destruct kids; [done | simpl; lia].
Qed.

(** X21: collapsing an expanded node hides its cached children, and
    expanding it again shows them at once from the cache, in cache order
    and one level deeper, under the spinner of the refetch that the
    expansion started. *)
Theorem reexpand_shows_cached_children (fuel : nat) (blog : BlogData)
    (level : nat) (kids : list BlogData) (w : World) :
  blogID blog ∈ expandedBlogIds (state w) →
  is_loading (state w) (blogID blog) = false →
  subblogs (state w) !! blogID blog = Some kids →
  kids ≠ [] →
  (∀ kid, kid ∈ kids → blogID kid ∉ expandedBlogIds (state w)) →
  BlogRow (S fuel) (state (toggleExpand blog w)) blog level
  = Some [row_of (state (toggleExpand blog w)) blog level]
  ∧ row_icon (row_of (state (toggleExpand blog w)) blog level) = ChevronRight
  ∧ BlogRow (S (S fuel)) (state (toggleExpand blog (toggleExpand blog w)))
            blog level
    = Some (row_of (state (toggleExpand blog (toggleExpand blog w)))
                   blog level
            :: map (λ kid,
                    row_of (state (toggleExpand blog (toggleExpand blog w)))
                           kid (S level)) kids)
  ∧ row_icon (row_of (state (toggleExpand blog (toggleExpand blog w)))
                     blog level) = Spinner.
Proof.
  intros Hexp L Hkids Hne Hleaf.
  destruct (toggleExpand_collapse_facts blog w Hexp)
    as (_ & _ & L1 & _ & Hout).
  rewrite L in L1.
  destruct (toggleExpand_idle_requests blog _ Hout L1) as (_ & L2 & _).
  split_and!.
  - by apply BlogRow_collapsed.
  - unfold row_of, row_icon. rewrite L1.
    by rewrite (proj2 (is_expanded_false _ _) Hout).
  - set (w2 := toggleExpand blog (toggleExpand blog w)).
    assert (He2 : expandedBlogIds (state w2) = expandedBlogIds (state w))
      by apply toggle_twice_expanded.
    assert (Hs2 : subblogs (state w2) = subblogs (state w))
      by (unfold w2; by rewrite !toggleExpand_subblogs).
    rewrite (BlogRow_expanded_unfold (S fuel) (state w2) blog level kids);
      [| by rewrite He2 | by rewrite Hs2 | done].
    rewrite (mapM_BlogRow_collapsed fuel (state w2) (S level) kids).
    + simpl. by rewrite concat_singletons.
    + intros kid Hin. rewrite He2. by apply Hleaf.
  - unfold row_of, row_icon. by rewrite L2.
Qed.

Lemma reexpand_shows_cached_children_witness :
  BlogRow 2 (state (toggleExpand blog_zine (toggleExpand blog_zine cached_world)))
          blog_zine 0
  = Some [row_of (state (toggleExpand blog_zine
                           (toggleExpand blog_zine cached_world)))
                 blog_zine 0;
          row_of (state (toggleExpand blog_zine
                           (toggleExpand blog_zine cached_world)))
                 (with_parentId 1 blog_child) 1].
Proof.
  refine (proj1 (proj2 (proj2
            (reexpand_shows_cached_children 0 blog_zine 0
               [with_parentId 1 blog_child] cached_world _ _ _ _ _)))).
  - apply is_expanded_true. vm_compute. reflexivity.
  - vm_compute. reflexivity.
  - vm_compute. reflexivity.
  - discriminate.
  - intros kid Hin. apply list_elem_of_singleton in Hin as ->.
    apply is_expanded_false. vm_compute. reflexivity.
Defined.

(** ** When the top-level list is fetched *)

Lemma toggleExpand_inflight (blog : BlogData) (w : World) :
  inflight (toggleExpand blog w)
  = inflight w ++
    (if negb (is_expanded (state w) (blogID blog))
        && negb (is_loading (state w) (blogID blog))
     then [AwaitSubblogs (blogID blog)] else []).
Proof.
  unfold toggleExpand, fetchSubblogs.
  destruct (is_expanded (state w) (blogID blog)),
           (is_loading (state w) (blogID blog)); simpl;
    by rewrite ?app_nil_r.
Qed.

Lemma filter_remove_first (f : Pending → bool) (p : Pending)
    (l : list Pending) :
  p ∈ l →
  (length (List.filter f (remove_first p l)) + (if f p then 1 else 0)
   = length (List.filter f l))%nat.
Proof.
  induction l as [|a l IH]; [by intros ?%not_elem_of_nil|].
  intros Hin. simpl. destruct (decide (p = a)) as [->|Hne].
  - destruct (f a); simpl; lia.
  - apply elem_of_cons in Hin as [?|Hin]; [done|].
    simpl. destruct (f a); simpl; rewrite <- (IH Hin); lia.
Qed.

Lemma refetch_inv_step (e : Event) (w w' : World) :
  refetch_inv w → step e w = Some w' → refetch_inv w'.
Proof.
  unfold refetch_inv. intros Hinv Hstep.
  destruct e as [blog|i confirmed|q|p r].
  - injection Hstep as <-.
    rewrite toggleExpand_requests, toggleExpand_inflight.
    rewrite !List.filter_app, !length_app.
    destruct (negb _ && negb _); simpl; lia.
  - injection Hstep as <-. destruct confirmed; simpl; [|done].
    rewrite !List.filter_app, !length_app. simpl. lia.
  - by injection Hstep as <-.
  - apply step_settle_inv in Hstep as [Hp ->].
    pose proof (filter_remove_first awaits_delete p (inflight w) Hp) as Hrm.
    destruct p, r; simpl in *;
      rewrite ?List.filter_app, ?length_app; simpl; lia.
Qed.

(** X22: the top-level list is fetched once on mount and after that only
    by a delete whose request has settled: in every reachable world the
    number of top-level fetches sent is at most one more than the number
    of delete requests sent; toggling and typing never fetch it. *)
Theorem refetch_only_after_delete (w : World) :
  reachable w →
  (length (List.filter is_list_req (requests w))
   ≤ 1 + length (List.filter is_delete_req (requests w)))%nat
  ∧ (∀ blog, List.filter is_list_req (requests (toggleExpand blog w))
             = List.filter is_list_req (requests w))
  ∧ (∀ q w', step (SetQuery q) w = Some w' → requests w' = requests w).
Proof.
  intros Hw. split_and!.
  - assert (H : refetch_inv w); [|unfold refetch_inv in H; lia].
    induction Hw as [|e w w' _ IH Hstep].
    + unfold refetch_inv. simpl. lia.
    + exact (refetch_inv_step e w w' IH Hstep).
  - intros blog. rewrite toggleExpand_requests, List.filter_app.
    destruct (negb _ && negb _); simpl; by rewrite app_nil_r.
  - by intros q w' [= <-].
Qed.

Lemma refetch_only_after_delete_witness :
  (length (List.filter is_list_req (requests racing_world))
   ≤ 1 + length (List.filter is_delete_req (requests racing_world)))%nat.
Proof.
  refine (proj1 (refetch_only_after_delete racing_world _)).
  apply (run_reachable
           [Delete 2 true; Settle (AwaitDelete 2) (Resolved []);
            Toggle blog_plain] cached_world racing_world
           cached_world_reachable).
  vm_compute. reflexivity.
Defined.
